(** * Card-game bot (index.js): store, handlers and their properties

    A shallow embedding of the handlers of [index.js] that touch the
    persistent store: the pack generation of [free_pack] and [buyPack],
    the passive-income job [givePassiveIncomeAll], the trade handlers
    [trade_accept] / [trade_reject] and the proposal branch of the text
    handler, from the message text on.

    Modelling choices, all visible in the definitions below:
    - the four tables of [sql/schema.sql] are a record; [users] is keyed by
      its primary key [tg_id], the three SERIAL tables are row lists with
      their sequence counter ([created_at] and the never written
      [requested_inventory_id] are left out);
    - every [pool.query] / [client.query] is one statement that is committed
      on its own (the source never issues BEGIN/COMMIT/ROLLBACK); a statement
      may fail, which in JavaScript rejects the awaited promise and unwinds
      the handler; the REFERENCES clauses are checked where a statement
      writes the referencing column;
    - [Math.random()] is an oracle giving a rational of [0,1); integers
      (coins, identifiers, epoch milliseconds) are unbounded;
    - column values reach the handlers as node-postgres hands them over:
      a BIGINT as its decimal text, a TIMESTAMP as a Date read in the zone
      of the process ([zone_offset]); [parseInt] answers a Number;
    - the chat transport ([ctx.reply], [sendMessage]) is not part of the
      model: a handler's answer is its result. *)

From Stdlib Require Import ZArith QArith Qround Ascii String.
From stdpp Require Import gmap strings list fin_maps pretty.

Local Open Scope Z_scope.

(** ** Rows of the four tables *)

Record CardRow := mkCard {
  card_id : Z;
  card_name : string;
  card_rarity : string;
  image_file_id : option string;
  coins_per_hour : Z
}.

Record UserRow := mkUser {
  last_pack : Z;  (* the stored wall clock, in milliseconds since
                     1970-01-01 00:00 of that clock; the DEFAULT is 0 *)
  coins : Z
}.

Record InvRow := mkInv {
  inv_id : Z;     (* inventory.id *)
  inv_user : Z;   (* inventory.user_id *)
  inv_card : Z    (* inventory.card_id *)
}.

Inductive TradeStatus := pending | accepted | rejected.

Record TradeRow := mkTrade {
  trade_id : Z;
  from_user : Z;
  to_user : Z;
  offered_inventory_id : Z;
  status : TradeStatus
}.

Record Store := mkStore {
  users : gmap Z UserRow;
  cards : list CardRow;
  cards_seq : Z;
  inventory : list InvRow;
  inventory_seq : Z;
  trades : list TradeRow;
  trades_seq : Z
}.

(** ** Statements sent to the store, in the order of the source *)

Inductive Query :=
| InsUser (tg_id : Z)
| SelIncome
| UpdCoinsAdd (income tg_id : Z)
| SelLastPack (uid : Z)
| UpdLastPack (now uid : Z)
| SelCards
| InsInventory (uid cid : Z)
| InsCard (name rarity : string) (cph : Z)
| SelCoins (uid : Z)
| UpdCoinsSub (price uid : Z)
| SelOwner (invId : Z)
| InsTrade (from to invId : Z)
| SelTrade (trId : Z)
| UpdInventoryOwner (uid invId : Z)
| UpdTradeStatus (st : TradeStatus) (trId : Z).

(** What a rejected promise carries. *)
Inductive Exn :=
| DbError (q : Query)       (* the statement did not execute *)
| ForeignKey (q : Query)    (* the statement violated a REFERENCES clause *)
| TypeError.                (* property access on undefined *)

Inductive Result (A : Type) :=
| Done (a : A)
| Throw (e : Exn).
Arguments Done {A} a.
Arguments Throw {A} e.

(** The world a handler runs in: the store, the statements sent so far
    (oldest first) and the number of [Math.random()] calls made. *)
Record World := mkWorld {
  db : Store;
  trace : list Query;
  draws : nat
}.

Definition M (A : Type) : Type := World -> Result A * World.

Definition ret {A} (a : A) : M A := fun w => (Done a, w).

Definition bind {A B} (m : M A) (k : A -> M B) : M B := fun w =>
  match m w with
  | (Done a, w') => k a w'
  | (Throw e, w') => (Throw e, w')
  end.

Definition throw {A} (e : Exn) : M A := fun w => (Throw e, w).

Notation "'do' x <- m ; k" := (bind m (fun x => k))
  (at level 10, x name, m at level 100, k at level 200).

(** ** Store updates used by the statements *)

Definition set_users (f : gmap Z UserRow -> gmap Z UserRow) (s : Store) : Store :=
  mkStore (f (users s)) (cards s) (cards_seq s) (inventory s) (inventory_seq s)
          (trades s) (trades_seq s).

Definition set_inventory (f : list InvRow -> list InvRow) (s : Store) : Store :=
  mkStore (users s) (cards s) (cards_seq s) (f (inventory s)) (inventory_seq s)
          (trades s) (trades_seq s).

Definition set_trades (f : list TradeRow -> list TradeRow) (s : Store) : Store :=
  mkStore (users s) (cards s) (cards_seq s) (inventory s) (inventory_seq s)
          (f (trades s)) (trades_seq s).

Definition add_coins (d : Z) (u : UserRow) : UserRow := mkUser (last_pack u) (coins u + d).
Definition set_last_pack (t : Z) (u : UserRow) : UserRow := mkUser t (coins u).
Definition set_owner (uid : Z) (i : InvRow) : InvRow := mkInv (inv_id i) uid (inv_card i).
Definition set_status (st : TradeStatus) (t : TradeRow) : TradeRow :=
  mkTrade (trade_id t) (from_user t) (to_user t) (offered_inventory_id t) st.

(** [UPDATE t SET ... WHERE id = k] on a row list. *)
Definition update_where {A} (key : A -> Z) (k : Z) (f : A -> A) (rows : list A) : list A :=
  map (fun r => if Z.eqb (key r) k then f r else r) rows.

Definition has_user (s : Store) (uid : Z) : bool := bool_decide (is_Some (users s !! uid)).
Definition has_card (s : Store) (cid : Z) : bool := existsb (fun c => Z.eqb (card_id c) cid) (cards s).
Definition has_inv (s : Store) (iid : Z) : bool := existsb (fun i => Z.eqb (inv_id i) iid) (inventory s).

(** Sum of [coins_per_hour] over the cards joined to one inventory row
    ([LEFT JOIN cards c ON c.id = i.card_id]; no match contributes nothing). *)
Definition card_income (s : Store) (cid : Z) : Z :=
  foldr Z.add 0 (map coins_per_hour (filter (fun c => card_id c = cid) (cards s))).

(** [COALESCE(SUM(c.coins_per_hour),0)] of the group of user [uid]. *)
Definition income_of (s : Store) (uid : Z) : Z :=
  foldr Z.add 0 (map (fun i => card_income s (inv_card i))
                     (filter (fun i => inv_user i = uid) (inventory s))).

(** The rows of the grouped income query, one per user. *)
Definition income_rows (s : Store) : list (Z * Z) :=
  map (fun kv => (fst kv, income_of s (fst kv))) (map_to_list (users s)).

(** [SELECT * FROM trades WHERE id=$1] followed by [.rows[0]]. *)
Definition find_trade (s : Store) (trId : Z) : option TradeRow :=
  head (filter (fun t => trade_id t = trId) (trades s)).

(** ** The rarity table (index.js l.23-34) *)

Record RarityDefault := mkRarity { weight : Z; default_coins_per_hour : Z }.

Definition RARITY_DEFAULTS : list (string * RarityDefault) :=
  [ ("common",    mkRarity 60 1);
    ("rare",      mkRarity 25 3);
    ("epic",      mkRarity 10 8);
    ("legendary", mkRarity 5 20) ]%string.

Definition getRaritiesAndWeights : list string * list Z :=
  let rarities := map fst RARITY_DEFAULTS in
  let weights := map (fun kv => weight (snd kv)) RARITY_DEFAULTS in
  (rarities, weights).

(** [RARITY_DEFAULTS[rarity]]: [None] is JavaScript's undefined. *)
Definition rarity_default (rarity : string) : option RarityDefault :=
  snd <$> head (filter (fun kv => fst kv = rarity) RARITY_DEFAULTS).

(** ** weightedChoice (index.js l.99-107) *)

(** The [for] loop: [None] when it ends without returning.  When [weights]
    is shorter than [items], [rnd -= undefined] is NaN and no later
    comparison succeeds. *)
Fixpoint weightedLoop {A} (items : list A) (weights : list Z) (rnd : Q) : option A :=
  match items with
  | [] => None
  | it :: items' =>
      match weights with
      | [] => None
      | wt :: weights' =>
          let rnd' := (rnd - inject_Z wt)%Q in
          if Qle_bool rnd' 0 then Some it else weightedLoop items' weights' rnd'
      end
  end.

(** [r] is the value of [Math.random()]; the result [None] is undefined
    ([items[items.length-1]] of an empty array). *)
Definition weightedChoice {A} (items : list A) (weights : list Z) (r : Q) : option A :=
  let sum := foldl Z.add 0 weights in
  match weightedLoop items weights (r * inject_Z sum)%Q with
  | Some it => Some it
  | None => last items
  end.

(** [arr[Math.floor(x)]] for a rational [x]. *)
Definition js_index {A} (arr : list A) (x : Q) : option A :=
  let i := Qfloor x in
  if i <? 0 then None else arr !! Z.to_nat i.

(** ** Values as the handlers see them

    node-postgres hands a BIGINT column ([users.tg_id], [inventory.user_id],
    [trades.to_user]) to JavaScript as its decimal text, an INTEGER column as
    a number; [ctx.from.id] is a number.  The source sets no type parser. *)
Inductive JsValue :=
| JsNumber (n : Z)
| JsString (s : string).

Definition pg_bigint (n : Z) : JsValue := JsString (pretty n).

(** [a === b]: values of different types are never equal. *)
Definition js_strict_eq (a b : JsValue) : bool :=
  match a, b with
  | JsNumber x, JsNumber y => x =? y
  | JsString s, JsString t => String.eqb s t
  | _, _ => false
  end.

(** The epoch milliseconds node-postgres gives for a TIMESTAMP (without
    zone) column holding the wall clock [wall]: the driver reads the fields
    as local time of the process, [new Date(y, m, d, h, mi, s, ms)].
    [zone_offset wall] is the offset of the process's zone from UTC (in
    milliseconds, east positive) in effect when the local clock shows
    [wall]; it is 0 everywhere for a process that runs in UTC. *)
Definition local_epoch (zone_offset : Z -> Z) (wall : Z) : Z := wall - zone_offset wall.

(** [Math.ceil(a / b)] for integers [a] and [b > 0]. *)
Definition ceil_div (a b : Z) : Z := - ((- a) / b).

(** What a handler reports to the user. *)
Inductive Reply :=
| CooldownActive (wait : Z)          (* 'Пак доступен через ~wait мин.' *)
| PackOpened (got : list CardRow)
| InsufficientFunds                  (* { ok:false, msg:'Недостаточно монет' } *)
| Bought (got : list CardRow)        (* { ok:true, cards: got } *)
| BadFormat                          (* 'Неверный формат. ...' *)
| InventoryNotFound
| NotOwner
| TradeSent (trId : Z)
| NotFound                           (* 'Заявка не найдена' *)
| NotTarget                          (* 'Вы не можете принять эту заявку' *)
| TradeAccepted
| TradeRejected.

(** What one run of the hourly timer prints. *)
Inductive TickLog := IncomeDistributed | IncomeError (e : Exn).

Section Handlers.

(** [faulty k]: the [k]-th statement sent to the store (counting from 0 over
    the whole run) fails before it executes. *)
Variable faulty : nat -> bool.
(** [random k]: the value of the [k]-th call of [Math.random()]. *)
Variable random : nat -> Q.
Variable COOLDOWN_MINUTES : Z.
(** The zone of the process, see [local_epoch]. *)
Variable zone_offset : Z -> Z.

(** One [await pool.query(...)] / [await client.query(...)]. *)
Definition stmt {A} (q : Query) (run : Store -> Result A * Store) : M A := fun w =>
  let sent := trace w ++ [q] in
  if faulty (length (trace w)) then (Throw (DbError q), mkWorld (db w) sent (draws w))
  else let (r, s') := run (db w) in (r, mkWorld s' sent (draws w)).

Definition Math_random : M Q := fun w =>
  (Done (random (draws w)), mkWorld (db w) (trace w) (S (draws w))).

(** *** The statements *)

(** INSERT INTO users (tg_id) VALUES ($1) ON CONFLICT (tg_id) DO NOTHING *)
Definition ensureUser (tg_id : Z) : M unit :=
  stmt (InsUser tg_id) (fun s =>
    (Done tt, match users s !! tg_id with
              | Some _ => s
              | None => set_users (insert tg_id (mkUser 0 0)) s
              end)).

(** SELECT u.tg_id, COALESCE(SUM(c.coins_per_hour),0) AS income ... GROUP BY u.tg_id *)
Definition select_income : M (list (Z * Z)) :=
  stmt SelIncome (fun s => (Done (income_rows s), s)).

(** UPDATE users SET coins = coins + $1 WHERE tg_id = $2 *)
Definition update_coins_add (income tg_id : Z) : M unit :=
  stmt (UpdCoinsAdd income tg_id) (fun s =>
    (Done tt, set_users (alter (add_coins income) tg_id) s)).

(** SELECT last_pack FROM users WHERE tg_id=$1; the column comes back as a
    Date read in the zone of the process. *)
Definition select_last_pack (uid : Z) : M (option Z) :=
  stmt (SelLastPack uid) (fun s =>
    (Done ((fun row => local_epoch zone_offset (last_pack row)) <$> users s !! uid), s)).

(** UPDATE users SET last_pack=$1 WHERE tg_id=$2 with [now.toISOString()]:
    the column has no zone, so the UTC wall clock of [now] is what is kept. *)
Definition update_last_pack (now uid : Z) : M unit :=
  stmt (UpdLastPack now uid) (fun s =>
    (Done tt, set_users (alter (set_last_pack now) uid) s)).

(** SELECT id, name, rarity, image_file_id FROM cards *)
Definition select_cards : M (list CardRow) :=
  stmt SelCards (fun s => (Done (cards s), s)).

(** INSERT INTO inventory (user_id, card_id) VALUES ($1,$2); both columns
    are REFERENCES; the sequence is consumed even when the row is refused. *)
Definition insert_inventory (uid cid : Z) : M unit :=
  stmt (InsInventory uid cid) (fun s =>
    let id := inventory_seq s + 1 in
    let s1 := mkStore (users s) (cards s) (cards_seq s) (inventory s) id
                      (trades s) (trades_seq s) in
    if has_user s uid && has_card s cid
    then (Done tt, set_inventory (fun l => l ++ [mkInv id uid cid]) s1)
    else (Throw (ForeignKey (InsInventory uid cid)), s1)).

(** INSERT INTO cards (name, rarity, coins_per_hour) VALUES ($1,$2,$3)
    RETURNING id, name, rarity, image_file_id *)
Definition insert_card (name rarity : string) (cph : Z) : M CardRow :=
  stmt (InsCard name rarity cph) (fun s =>
    let id := cards_seq s + 1 in
    let row := mkCard id name rarity None cph in
    (Done row, mkStore (users s) (cards s ++ [row]) id (inventory s) (inventory_seq s)
                       (trades s) (trades_seq s))).

(** SELECT coins FROM users WHERE tg_id=$1 *)
Definition select_coins (uid : Z) : M (option Z) :=
  stmt (SelCoins uid) (fun s => (Done (coins <$> users s !! uid), s)).

(** UPDATE users SET coins = coins - $1 WHERE tg_id = $2 *)
Definition update_coins_sub (price uid : Z) : M unit :=
  stmt (UpdCoinsSub price uid) (fun s =>
    (Done tt, set_users (alter (add_coins (- price)) uid) s)).

(** SELECT user_id FROM inventory WHERE id=$1 *)
Definition select_owner (invId : Z) : M (list Z) :=
  stmt (SelOwner invId) (fun s =>
    (Done (map inv_user (filter (fun i => inv_id i = invId) (inventory s))), s)).

(** INSERT INTO trades (from_user, to_user, offered_inventory_id, status)
    VALUES ($1,$2,$3,'pending') RETURNING id *)
Definition insert_trade (from to invId : Z) : M Z :=
  stmt (InsTrade from to invId) (fun s =>
    let id := trades_seq s + 1 in
    let s1 := mkStore (users s) (cards s) (cards_seq s) (inventory s) (inventory_seq s)
                      (trades s) id in
    if has_user s from && has_user s to && has_inv s invId
    then (Done id, set_trades (fun l => l ++ [mkTrade id from to invId pending]) s1)
    else (Throw (ForeignKey (InsTrade from to invId)), s1)).

(** SELECT * FROM trades WHERE id=$1, then [.rows[0]] *)
Definition select_trade (trId : Z) : M (option TradeRow) :=
  stmt (SelTrade trId) (fun s =>
    (Done (find_trade s trId), s)).

(** UPDATE inventory SET user_id = $1 WHERE id = $2; the new owner is
    REFERENCES users(tg_id), checked when a row is written. *)
Definition update_inventory_owner (uid invId : Z) : M unit :=
  stmt (UpdInventoryOwner uid invId) (fun s =>
    if has_inv s invId && negb (has_user s uid)
    then (Throw (ForeignKey (UpdInventoryOwner uid invId)), s)
    else (Done tt, set_inventory (update_where inv_id invId (set_owner uid)) s)).

(** UPDATE trades SET status=$1 WHERE id=$2 *)
Definition update_trade_status (st : TradeStatus) (trId : Z) : M unit :=
  stmt (UpdTradeStatus st trId) (fun s =>
    (Done tt, set_trades (update_where trade_id trId (set_status st)) s)).

(** *** Pack generation: the [for] loop of [free_pack] (l.146-162) and of
    [buyPack] (l.201-216), the same text at both places.  [cardsDb] is the
    snapshot read before the loop; the loop never adds to it. *)
Fixpoint packLoop (uid : Z) (cardsDb : list CardRow) (n : nat) (got : list CardRow)
  : M (list CardRow) :=
  match n with
  | O => ret got
  | S n' =>
      let (rarities, weights) := getRaritiesAndWeights in
      if (0 <? length cardsDb)%nat then
        do r1 <- Math_random;
        let rarity := weightedChoice rarities weights r1 in
        let bucket := filter (fun c => Some (card_rarity c) = rarity) cardsDb in
        do r2 <- Math_random;
        let choice :=
          if (0 <? length bucket)%nat
          then js_index bucket (r2 * inject_Z (Z.of_nat (length bucket)))%Q
          else js_index cardsDb (r2 * inject_Z (Z.of_nat (length cardsDb)))%Q in
        match choice with
        | None => throw TypeError
        | Some c =>
            do _ <- insert_inventory uid (card_id c);
            packLoop uid cardsDb n' (got ++ [c])
        end
      else
        do r1 <- Math_random;
        let rarity := weightedChoice rarities weights r1 in
        do r2 <- Math_random;
        let name := ("Card " +:+ pretty (Qfloor (r2 * inject_Z 9000)%Q + 1000))%string in
        match rarity with
        | None => throw TypeError
        | Some rar =>
            match rarity_default rar with
            | None => throw TypeError
            | Some d =>
                do c <- insert_card name rar (default_coins_per_hour d);
                do _ <- insert_inventory uid (card_id c);
                packLoop uid cardsDb n' (got ++ [c])
            end
        end
  end.

(** The block both call sites share: read the catalog, then run the loop. *)
Definition openPack (uid : Z) (count : nat) : M (list CardRow) :=
  do cardsDb <- select_cards;
  packLoop uid cardsDb count [].

(** *** bot.action('free_pack') (l.131-166); [now] is [new Date()] in
    epoch milliseconds. *)
Definition free_pack (uid now : Z) : M Reply :=
  do _ <- ensureUser uid;
  do row <- select_last_pack uid;
  let last := match row with Some t => t | None => 0 end in
  let diff := now - last in
  if diff <? COOLDOWN_MINUTES * 60 * 1000 then
    let wait := ceil_div (COOLDOWN_MINUTES * 60 * 1000 - diff) 60000 in
    ret (CooldownActive wait)
  else
    do _ <- update_last_pack now uid;
    do got <- openPack uid 5;
    ret (PackOpened got).

(** *** buyPack (l.191-221) *)
Definition buyPack (uid : Z) (count : nat) (price : Z) : M Reply :=
  do res <- select_coins uid;
  let coins := match res with Some c => c | None => 0 end in
  if coins <? price then ret InsufficientFunds
  else
    do _ <- update_coins_sub price uid;
    do got <- openPack uid count;
    ret (Bought got).

(** *** bot.action(/buy_/) (l.223-231) *)
Definition shop_map (key : string) : option (nat * Z) :=
  if decide (key = "buy_2"%string) then Some (2%nat, 20)
  else if decide (key = "buy_3"%string) then Some (3%nat, 25)
  else if decide (key = "buy_10"%string) then Some (10%nat, 60)
  else None.

Definition buy_action (uid : Z) (key : string) : M Reply :=
  match shop_map key with
  | None => throw TypeError
  | Some (count, price) => buyPack uid count price
  end.

(** *** The [inv#<id> <tg_id>] branch of bot.on('text') (l.240-262), from
    the two parsed numbers on.  [ownerRes.rows[0].user_id] is a BIGINT
    column, [uid] is [ctx.from.id]. *)
Definition propose_trade (uid invId toUser : Z) : M Reply :=
  if (invId =? 0) || (toUser =? 0) then ret BadFormat
  else
    do _ <- ensureUser toUser;
    do owners <- select_owner invId;
    match owners with
    | [] => ret InventoryNotFound
    | owner :: _ =>
        if negb (js_strict_eq (pg_bigint owner) (JsNumber uid)) then ret NotOwner
        else
          do trId <- insert_trade uid toUser invId;
          ret (TradeSent trId)
    end.

(** *** bot.action(/trade_accept:/) (l.273-283); [tr.to_user] is a BIGINT
    column, [uid] is [ctx.from.id]. *)
Definition trade_accept (uid trId : Z) : M Reply :=
  do row <- select_trade trId;
  match row with
  | None => ret NotFound
  | Some tr =>
      if negb (js_strict_eq (pg_bigint (to_user tr)) (JsNumber uid)) then ret NotTarget
      else
        do _ <- update_inventory_owner (to_user tr) (offered_inventory_id tr);
        do _ <- update_trade_status accepted trId;
        ret TradeAccepted
  end.

(** *** bot.action(/trade_reject:/) (l.284-288); the handler never reads
    [ctx.from], so [uid] is unused. *)
Definition trade_reject (uid trId : Z) : M Reply :=
  do _ <- update_trade_status rejected trId;
  ret TradeRejected.

(** *** givePassiveIncomeAll (l.78-97) *)
Fixpoint creditLoop (rows : list (Z * Z)) : M unit :=
  match rows with
  | [] => ret tt
  | (tg_id, income) :: rest =>
      if 0 <? income
      then do _ <- update_coins_add income tg_id; creditLoop rest
      else creditLoop rest
  end.

Definition givePassiveIncomeAll : M unit :=
  do rows <- select_income;
  creditLoop rows.

(** The timer callback of [startBackgroundTasks] (l.325-329): the
    [try]/[catch] is around the whole call. *)
Definition income_tick (w : World) : TickLog * World :=
  match givePassiveIncomeAll w with
  | (Done _, w') => (IncomeDistributed, w')
  | (Throw e, w') => (IncomeError e, w')
  end.

End Handlers.

(** A store that never fails. *)
Definition reliable : nat -> bool := fun _ => false.
(** Exactly the [k]-th statement fails. *)
Definition fail_at (k : nat) : nat -> bool := fun i => Nat.eqb i k.

(** Every value of the oracle is one [Math.random()] can return. *)
Definition in_unit (random : nat -> Q) : Prop :=
  forall k, (0 <= random k)%Q /\ (random k < 1)%Q.

(** * Statements about runs, and sample worlds *)

(** [k] rows, all of [uid], were appended to the inventory between [w] and [w']. *)
Definition opened_pack (uid : Z) (k : nat) (w w' : World) : Prop :=
  exists new, inventory (db w') = inventory (db w) ++ new
    /\ length new = k /\ Forall (fun i => inv_user i = uid) new.

(** An oracle that always answers 0.5. *)
Definition half : nat -> Q := fun _ => (1 # 2)%Q.

(** A world with one account (60 coins) and nothing else. *)
Definition world_one_user : World :=
  mkWorld (mkStore {[ 1 := mkUser 0 60 ]} [] 0 [] 0 [] 0) [] 0.

(** The all-or-nothing reading of a pack: a run that ends normally has
    appended [count] rows of [uid], a run that fails has appended none. *)
Definition pack_all_or_nothing (faulty : nat -> bool) (random : nat -> Q)
           (uid : Z) (count : nat) (w : World) : Prop :=
  match openPack faulty random uid count w with
  | (Done _, w') => opened_pack uid count w w'
  | (Throw _, w') => inventory (db w') = inventory (db w)
  end.

(** The [(user_id, card_id)] pairs of the inventory INSERTs among [qs]. *)
Definition inventory_inserts (qs : list Query) : list (Z * Z) :=
  flat_map (fun q => match q with InsInventory uid cid => [(uid, cid)] | _ => [] end) qs.

(** Was the run stopped by a statement (one that did not execute, or one
    the store refused)?  A TypeError is raised between two statements. *)
Definition statement_failed (e : Exn) : bool :=
  match e with
  | DbError _ | ForeignKey _ => true
  | TypeError => false
  end.

(** The statements among [sent] that went through: all of them, but the
    last one when it is the statement that stopped the run. *)
Definition executed {A} (r : Result A) (sent : list Query) : list Query :=
  match r with
  | Done _ => sent
  | Throw e => if statement_failed e then removelast sent else sent
  end.

(** The rollback reading of a purchase: when the balance read and the debit
    went through and the run fails later, the balance is what it was. *)
Definition debit_rolled_back (faulty : nat -> bool) (random : nat -> Q)
           (uid : Z) (count : nat) (price : Z) (w : World) : Prop :=
  forall row e w',
    users (db w) !! uid = Some row -> price <= coins row ->
    faulty (length (trace w)) = false -> faulty (S (length (trace w))) = false ->
    buyPack faulty random uid count price w = (Throw e, w') ->
    coins <$> users (db w') !! uid = Some (coins row).

(** The cooldown in milliseconds, [COOLDOWN_MINUTES * 60 * 1000]. *)
Definition cooldown_window (COOLDOWN_MINUTES : Z) : Z := COOLDOWN_MINUTES * 60 * 1000.

(** The wall clock stored for the user's last pack: the row's, or the
    DEFAULT of the row [ensureUser] is about to create. *)
Definition last_pack_of (s : Store) (uid : Z) : Z :=
  match users s !! uid with
  | Some row => last_pack row
  | None => 0
  end.

(** The instant the handler takes for the user's last pack: the stored wall
    clock as the driver reads it in the zone of the process. *)
Definition last_pack_read (zone_offset : Z -> Z) (s : Store) (uid : Z) : Z :=
  local_epoch zone_offset (last_pack_of s uid).

(** A process that runs in UTC, and one three hours east of it. *)
Definition utc : Z -> Z := fun _ => 0.

Definition utc_plus_3 : Z -> Z := fun _ => 3 * 3600 * 1000.

(** 2026-01-01T12:00:00.000Z in epoch milliseconds. *)
Definition noon_2026 : Z := 1767268800000.

(** The rows of the income query that get an UPDATE. *)
Definition payable (rows : list (Z * Z)) : list (Z * Z) :=
  filter (fun r => 0 < snd r) rows.

(** The UPDATE statements of a tick that runs to its end. *)
Definition credit_writes (rows : list (Z * Z)) : list Query :=
  map (fun r => UpdCoinsAdd (snd r) (fst r)) (payable rows).

(** The users table after crediting [rows] in order. *)
Definition credit_all (rows : list (Z * Z)) (m : gmap Z UserRow) : gmap Z UserRow :=
  foldl (fun m r => alter (add_coins (snd r)) (fst r) m) m (payable rows).

(** The example of the specification: user 1 owns two cards with rates 1
    and 8, user 2 owns nothing. *)
Definition world_income : World :=
  mkWorld (mkStore {[ 1 := mkUser 0 5; 2 := mkUser 0 7 ]}
                   [mkCard 1 "Sprout" "common" None 1; mkCard 2 "Drake" "epic" None 8] 2
                   [mkInv 1 1 1; mkInv 2 1 2] 2 [] 0) [] 0.

(** The income-per-hour of the cards referenced by the inventory entries
    [uid] owns, entry by entry. *)
Definition owned_rates (s : Store) (uid : Z) : list Z :=
  flat_map (fun i =>
              if inv_user i =? uid
              then flat_map (fun c => if card_id c =? inv_card i
                                      then [coins_per_hour c] else [])
                            (cards s)
              else [])
           (inventory s).

Definition sum_rates (rates : list Z) : Z := foldr Z.add 0 rates.

(** [uid]'s balance went up by its income between [w] and [w']. *)
Definition credited (w w' : World) (uid : Z) : Prop :=
  coins <$> users (db w') !! uid
  = (fun c => c + income_of (db w) uid) <$> (coins <$> users (db w) !! uid).

(** The per-user reading of error isolation: when the [k]-th statement of
    the run fails, every user but the one that statement was crediting is
    credited in that tick. *)
Definition tick_isolates_credit_failure (k : nat) (w : World) : Prop :=
  let w' := snd (income_tick (fail_at k) w) in
  forall uid, is_Some (users (db w) !! uid) ->
    (forall inc, trace w' !! k <> Some (UpdCoinsAdd inc uid)) ->
    credited w w' uid.

(** Two users, each owning one copy of a card that earns 1. *)
Definition world_two_earners : World :=
  mkWorld (mkStore {[ 1 := mkUser 0 0; 2 := mkUser 0 0 ]}
                   [mkCard 1 "Sprout" "common" None 1] 1
                   [mkInv 1 1 1; mkInv 2 2 1] 2 [] 0) [] 0.

(** Three accounts; user 1 owns inventory row 1. *)
Definition world_traders : World :=
  mkWorld (mkStore {[ 1 := mkUser 0 0; 2 := mkUser 0 0; 3 := mkUser 0 0 ]}
                   [mkCard 1 "Sprout" "common" None 1] 1
                   [mkInv 1 1 1] 1 [] 0) [] 0.

(** The world a handler leaves behind. *)
Definition after {A} (m : M A) (w : World) : World := snd (m w).

(** Trade 1, from user 1 to user 2 for inventory row 1: still pending, and
    after it was resolved with the row in user 2's hands. *)
Definition world_pending_trade : World :=
  mkWorld (mkStore {[ 1 := mkUser 0 0; 2 := mkUser 0 0; 3 := mkUser 0 0 ]}
                   [mkCard 1 "Sprout" "common" None 1] 1
                   [mkInv 1 1 1] 1 [mkTrade 1 1 2 1 pending] 1) [] 0.




(** ** Further notions used by the properties *)

(** The owner the proposal handler compares with: [rows[0].user_id] of the
    lookup by inventory id. *)
Definition owner_of (s : Store) (invId : Z) : option Z :=
  head (map inv_user (filter (fun i => inv_id i = invId) (inventory s))).

(** The users table after [ensureUser tg_id]. *)
Definition ensured (tg_id : Z) (m : gmap Z UserRow) : gmap Z UserRow :=
  match m !! tg_id with
  | Some _ => m
  | None => <[tg_id := mkUser 0 0]> m
  end.

(** The rarity sampled with the [k]-th random value. *)
Definition sampled_rarity (random : nat -> Q) (k : nat) : option string :=
  weightedChoice (fst getRaritiesAndWeights) (snd getRaritiesAndWeights) (random k).

(** A catalog of one common and one epic card, and one account. *)
Definition world_small_catalog : World :=
  mkWorld (mkStore {[ 1 := mkUser 0 0 ]}
                   [mkCard 1 "Sprout" "common" None 1; mkCard 2 "Drake" "epic" None 8] 2
                   [] 0 [] 0) [] 0.

(** [m'] has the rows of [m] with the same timestamps and balances that did
    not go down. *)
Definition balances_grew (m m' : gmap Z UserRow) : Prop :=
  forall uid,
    match m !! uid, m' !! uid with
    | Some row, Some row' => last_pack row' = last_pack row /\ coins row <= coins row'
    | None, None => True
    | _, _ => False
    end.

(** The world after [k] hourly ticks on a store that does not fail. *)
Definition ticks (k : nat) (w : World) : World :=
  Nat.iter k (fun w => snd (income_tick reliable w)) w.

(** ** The proposal text (index.js l.240-262)

    A message text is a [string] whose characters stand for the code units
    of the JavaScript string (code units below 256). *)

(** [txt.split(/\\s+/)]: the pattern of the source is a backslash followed
    by one or more letters s.  [cur] is the piece read so far, [insep] says
    that the letters s of a separator are being skipped. *)
Fixpoint split_backslash_s (txt cur : string) (insep : bool) : list string :=
  match txt with
  | EmptyString => [cur]
  | String a rest =>
      if insep && Ascii.eqb a "s"%char
      then split_backslash_s rest cur true
      else
        match rest with
        | String b rest' =>
            if Ascii.eqb a "\"%char && Ascii.eqb b "s"%char
            then cur :: split_backslash_s rest' EmptyString true
            else split_backslash_s rest (cur +:+ String a EmptyString) false
        | EmptyString => [cur +:+ String a EmptyString]
        end
  end.

(** [s.replace(pat, '')] for a string pattern: the first occurrence goes. *)
Fixpoint remove_first (pat s : string) : string :=
  if String.prefix pat s then String.substring (String.length pat)
                                               (String.length s - String.length pat) s
  else match s with
       | EmptyString => EmptyString
       | String a rest => String a (remove_first pat rest)
       end.

(** The white space [parseInt] skips, among the code units below 256. *)
Definition is_space (a : Ascii.ascii) : bool :=
  let n := Ascii.nat_of_ascii a in
  ((9 <=? n) && (n <=? 13))%nat || (n =? 32)%nat || (n =? 160)%nat.

Definition is_digit (a : Ascii.ascii) : bool :=
  let n := Ascii.nat_of_ascii a in ((48 <=? n) && (n <=? 57))%nat.

Fixpoint skip_spaces (s : string) : string :=
  match s with
  | String a rest => if is_space a then skip_spaces rest else s
  | EmptyString => EmptyString
  end.

(** The value of the leading decimal digits; [acc] is [None] until a digit
    was read. *)
Fixpoint leading_digits (s : string) (acc : option Z) : option Z :=
  match s with
  | String a rest =>
      if is_digit a
      then leading_digits rest
             (Some (10 * (match acc with Some v => v | None => 0 end)
                    + Z.of_nat (Ascii.nat_of_ascii a - 48)))
      else acc
  | EmptyString => acc
  end.

(** The Number value of an integer: itself up to 53 significant bits, else
    the nearest integer with 53 significant bits, ties to the even one.
    (From 2^1024 on the Number is Infinity, which no statement of the store
    takes as an id: such a statement is one that fails.) *)
Definition double_of_Z (n : Z) : Z :=
  let a := Z.abs n in
  let bits := Z.log2 a + 1 in
  if bits <=? 53 then n
  else
    let sh := bits - 53 in
    let q := Z.shiftr a sh in
    let rem := a - Z.shiftl q sh in
    let half := Z.shiftl 1 (sh - 1) in
    let q' := if rem <? half then q
              else if half <? rem then q + 1
              else if Z.even q then q else q + 1 in
    Z.sgn n * Z.shiftl q' sh.

(** [parseInt(s, 10)]; [None] is NaN. *)
Definition parseInt10 (s : string) : option Z :=
  double_of_Z <$>
  match skip_spaces s with
  | String "-"%char rest => Z.opp <$> leading_digits rest None
  | String "+"%char rest => leading_digits rest None
  | s' => leading_digits s' None
  end.

Inductive TextReply :=
| ProposalUsage                 (* 'Нужно: inv#<id> <tg_id получателя>' *)
| ProposalAnswer (r : Reply).

(** The body of [if (txt.startsWith('inv#'))], [txt] being the trimmed text. *)
Definition text_proposal (faulty : nat -> bool) (uid : Z) (txt : string) : M TextReply :=
  match split_backslash_s txt EmptyString false with
  | p0 :: p1 :: _ =>
      match parseInt10 (remove_first "inv#" p0), parseInt10 p1 with
      | Some invId, Some toUser =>
          do r <- propose_trade faulty uid invId toUser;
          ret (ProposalAnswer r)
      | _, _ => ret (ProposalAnswer BadFormat)
      end
  | _ => ret ProposalUsage
  end.

(** Does the text hold a backslash? *)
Fixpoint has_backslash (s : string) : bool :=
  match s with
  | String a rest => Ascii.eqb a "\"%char || has_backslash rest
  | EmptyString => false
  end.

(** The [(user_id, card_id)] pair of an inventory row. *)
Definition inv_key (i : InvRow) : Z * Z := (inv_user i, inv_card i).

(** A run from [w] to [w'] with result [r] has committed each of its
    INSERTs into the inventory: the rows appended are those of the executed
    INSERT statements it sent, in order, and a run stopped by a failed
    statement has sent that statement. *)
Definition inserts_committed {A} (r : Result A) (w w' : World) : Prop :=
  exists sent new,
    trace w' = trace w ++ sent /\
    inventory (db w') = inventory (db w) ++ new /\
    map inv_key new = inventory_inserts (executed r sent) /\
    (forall e, r = Throw e -> statement_failed e = true -> sent <> []).

(** * Properties *)

(** ** The pure helpers *)

Lemma weightedLoop_in {A} (items : list A) (weights : list Z) (rnd : Q) (x : A) :
  weightedLoop items weights rnd = Some x -> x ∈ items.
Proof.
  revert weights rnd.
  induction items as [|it items IH]; intros weights rnd H; simpl in H; [discriminate|].
  destruct weights as [|wt weights]; [discriminate|].
  destruct (Qle_bool (rnd - inject_Z wt) 0).
  - injection H as <-. apply list_elem_of_here.
  - apply list_elem_of_further. eapply IH, H.
Qed.

Lemma weightedChoice_in {A} (items : list A) (weights : list Z) (r : Q) :
  items <> [] -> exists x, weightedChoice items weights r = Some x /\ x ∈ items.
Proof.
  intros Hne. unfold weightedChoice.
  destruct (weightedLoop _ _ _) as [x|] eqn:E.
  - exists x. split; [reflexivity|]. eapply weightedLoop_in, E.
  - destruct (last items) as [x|] eqn:L.
    + exists x. split; [reflexivity|]. apply last_Some in L as [l' ->].
      apply elem_of_app. right. apply list_elem_of_here.
    + apply last_None in L. contradiction.
Qed.

(** Sampling the default table always gives one of its four rarities. *)
Lemma sampled_rarity_default (r : Q) :
  exists rar d,
    weightedChoice (fst getRaritiesAndWeights) (snd getRaritiesAndWeights) r = Some rar
    /\ rarity_default rar = Some d.
Proof.
  destruct (weightedChoice_in (fst getRaritiesAndWeights) (snd getRaritiesAndWeights) r)
    as (rar & E & Hin); [discriminate|].
  exists rar. rewrite E. simpl in Hin.
  repeat (apply elem_of_cons in Hin as [->|Hin]); try (eexists; split; reflexivity).
  inversion Hin.
Qed.

Lemma js_index_unit {A} (arr : list A) (r : Q) :
  (0 <= r)%Q -> (r < 1)%Q -> arr <> [] ->
  exists x, js_index arr (r * inject_Z (Z.of_nat (length arr)))%Q = Some x /\ x ∈ arr.
Proof.
  intros H0 H1 Hne. unfold js_index.
  set (n := Z.of_nat (length arr)).
  assert (Hn : 0 < n) by (destruct arr; [contradiction | subst n; simpl; lia]).
  assert (Hlo : 0 <= Qfloor (r * inject_Z n)).
  { change 0 with (Qfloor (inject_Z 0)). apply Qfloor_resp_le.
    apply Qmult_le_0_compat; [exact H0|].
    change (inject_Z 0 <= inject_Z n)%Q. rewrite <- Zle_Qle. lia. }
  assert (Hhi : Qfloor (r * inject_Z n) < n).
  { rewrite Zlt_Qlt. eapply Qle_lt_trans; [apply Qfloor_le|].
    apply (Qlt_le_trans _ (1 * inject_Z n)%Q); [|rewrite Qmult_1_l; apply Qle_refl].
    apply Qmult_lt_compat_r; [|exact H1].
    change (inject_Z 0 < inject_Z n)%Q. rewrite <- Zlt_Qlt. exact Hn. }
  destruct (Z.ltb_spec (Qfloor (r * inject_Z n)) 0) as [?|_]; [lia|].
  destruct (lookup_lt_is_Some_2 arr (Z.to_nat (Qfloor (r * inject_Z n)))) as [x Hx];
    [subst n; lia|].
  exists x. split; [exact Hx|]. eapply list_elem_of_lookup_2, Hx.
Qed.

Lemma ceil_div_spec (a b : Z) :
  0 < b -> b * (ceil_div a b - 1) < a <= b * ceil_div a b.
Proof.
  intros Hb. unfold ceil_div.
  pose proof (Z.div_mod (- a) b ltac:(lia)) as Hdm.
  pose proof (Z.mod_pos_bound (- a) b Hb) as Hm.
  nia.
Qed.

(** ** The monad and the statements *)

Lemma bind_inv {A B} (m : M A) (k : A -> M B) (w w' : World) (r : Result B) :
  bind m k w = (r, w') ->
  (exists a w1, m w = (Done a, w1) /\ k a w1 = (r, w'))
  \/ (exists e, m w = (Throw e, w') /\ r = Throw e).
Proof.
  unfold bind. destruct (m w) as [[a|e] w1]; intros H.
  - left. exists a, w1. split; [reflexivity|exact H].
  - right. injection H as <- <-. exists e. split; reflexivity.
Qed.

Section StatementFacts.

Variable faulty : nat -> bool.
Variable random : nat -> Q.

Lemma Math_random_inv (w w' : World) (r : Result Q) :
  Math_random random w = (r, w') ->
  r = Done (random (draws w)) /\ db w' = db w /\ trace w' = trace w.
Proof. unfold Math_random. intros H. injection H as <- <-. auto. Qed.

(** A statement either fails and leaves the store as it is, or runs. *)
Lemma stmt_inv {A} (q : Query) (run : Store -> Result A * Store) (w w' : World) (r : Result A) :
  stmt faulty q run w = (r, w') ->
  trace w' = trace w ++ [q] /\ draws w' = draws w /\
  ((faulty (length (trace w)) = true /\ r = Throw (DbError q) /\ db w' = db w)
   \/ (faulty (length (trace w)) = false /\ run (db w) = (r, db w'))).
Proof.
  unfold stmt. destruct (faulty (length (trace w))).
  - intros H. injection H as <- <-. simpl. do 2 (split; [reflexivity|]). left. auto.
  - destruct (run (db w)) as [r0 s'] eqn:E. intros H. injection H as <- <-. simpl.
    do 2 (split; [reflexivity|]). right. auto.
Qed.

Lemma insert_inventory_inv (uid cid : Z) (w w' : World) (r : Result unit) :
  insert_inventory faulty uid cid w = (r, w') ->
  users (db w') = users (db w) /\ cards (db w') = cards (db w) /\
  trades (db w') = trades (db w) /\
  match r with
  | Done _ => exists id, inventory (db w') = inventory (db w) ++ [mkInv id uid cid]
  | Throw _ => inventory (db w') = inventory (db w)
  end.
Proof.
  unfold insert_inventory. intros H.
  apply stmt_inv in H as (_ & _ & [(_ & -> & ->)|(_ & H)]); [auto|].
  destruct (has_user (db w) uid && has_card (db w) cid);
    injection H as <- <-; simpl; eauto 6.
Qed.

Lemma insert_card_inv (name rarity : string) (cph : Z) (w w' : World) (r : Result CardRow) :
  insert_card faulty name rarity cph w = (r, w') ->
  users (db w') = users (db w) /\ inventory (db w') = inventory (db w) /\
  trades (db w') = trades (db w) /\
  match r with
  | Done c => cards (db w') = cards (db w) ++ [c]
  | Throw _ => cards (db w') = cards (db w)
  end.
Proof.
  unfold insert_card. intros H.
  apply stmt_inv in H as (_ & _ & [(_ & -> & ->)|(_ & H)]); [auto|].
  injection H as <- <-; simpl; auto.
Qed.

(** What the loop may change, whatever fails: rows of [uid] appended to the
    inventory and, for an empty snapshot, cards appended to the catalog. *)
Lemma packLoop_spec (n : nat) :
  forall (uid : Z) (cardsDb got : list CardRow) (w w' : World) (r : Result (list CardRow)),
  packLoop faulty random uid cardsDb n got w = (r, w') ->
  users (db w') = users (db w) /\ trades (db w') = trades (db w) /\
  exists new newc,
    inventory (db w') = inventory (db w) ++ new /\
    cards (db w') = cards (db w) ++ newc /\
    Forall (fun i => inv_user i = uid) new /\
    (cardsDb <> [] -> newc = []) /\
    match r with
    | Done got' => length new = n /\ length got' = (length got + n)%nat
                   /\ (cardsDb = [] -> length newc = n)
    | Throw _ => (length new < n)%nat /\ (length newc <= n)%nat
    end.
Proof.
  induction n as [|n IH]; intros uid cardsDb got w w' r H.
  - injection H as <- <-. repeat split; try reflexivity.
    exists [], []. rewrite !app_nil_r. repeat split; auto.
  - simpl in H. destruct cardsDb as [|c0 cs]; simpl in H.
    + (* empty snapshot: a card is synthesised *)
      apply bind_inv in H as [(r1 & w1 & H1 & H)|(e & H1 & _)];
        [|apply Math_random_inv in H1 as [? _]; discriminate].
      apply Math_random_inv in H1 as (_ & Hd1 & _).
      apply bind_inv in H as [(r2 & w2 & H2 & H)|(e & H2 & _)];
        [|apply Math_random_inv in H2 as [? _]; discriminate].
      apply Math_random_inv in H2 as (_ & Hd2 & _).
      assert (Hw : db w2 = db w) by congruence. clear Hd1 Hd2.
      assert (Hstop : forall e, (Throw e : Result (list CardRow), w2) = (r, w') ->
        users (db w') = users (db w) /\ trades (db w') = trades (db w) /\
        exists new newc,
          inventory (db w') = inventory (db w) ++ new /\
          cards (db w') = cards (db w) ++ newc /\
          Forall (fun i => inv_user i = uid) new /\
          (@nil CardRow <> [] -> newc = []) /\
          match r with
          | Done got' => length new = S n /\ length got' = (length got + S n)%nat
                         /\ (@nil CardRow = [] -> length newc = S n)
          | Throw _ => (length new < S n)%nat /\ (length newc <= S n)%nat
          end).
      { intros e He. injection He as <- <-. rewrite Hw. repeat split; try reflexivity.
        exists [], []. rewrite !app_nil_r. repeat split; simpl; auto; lia. }
      destruct (weightedChoice _ _ r1) as [rar|]; [|eapply Hstop, H].
      destruct (rarity_default rar) as [d|]; [|eapply Hstop, H].
      clear Hstop.
      apply bind_inv in H as [(c & w3 & H3 & H)|(e & H3 & ->)].
      * apply insert_card_inv in H3 as (Hu3 & Hi3 & Ht3 & Hc3).
        apply bind_inv in H as [([] & w4 & H4 & H)|(e & H4 & ->)].
        -- apply insert_inventory_inv in H4 as (Hu4 & Hc4 & Ht4 & (id & Hi4)).
           apply IH in H as (Hu & Ht & new & newc & Hi & Hc & Hown & _ & Hr).
           split; [congruence|]. split; [congruence|].
           exists (mkInv id uid (card_id c) :: new), (c :: newc).
           split; [rewrite Hi, Hi4, Hi3, Hw, <- app_assoc; reflexivity|].
           split; [rewrite Hc, Hc4, Hc3, Hw, <- app_assoc; reflexivity|].
           split; [constructor; [reflexivity|exact Hown]|].
           split; [congruence|].
           destruct r as [got'|e]; simpl.
           ++ destruct Hr as (Hl & Hg & Hn). rewrite length_app in Hg. simpl in Hg.
              split; [lia|]. split; [lia|]. intros _. rewrite Hn; reflexivity.
           ++ lia.
        -- apply insert_inventory_inv in H4 as (Hu4 & Hc4 & Ht4 & Hi4).
           split; [congruence|]. split; [congruence|].
           exists [], [c]. rewrite app_nil_r.
           repeat split; simpl; try congruence; auto; lia.
      * apply insert_card_inv in H3 as (Hu3 & Hi3 & Ht3 & Hc3).
        split; [congruence|]. split; [congruence|].
        exists [], []. rewrite !app_nil_r.
        repeat split; simpl; try congruence; auto; lia.
    + (* the snapshot has cards: one of them is picked *)
      apply bind_inv in H as [(r1 & w1 & H1 & H)|(e & H1 & _)];
        [|apply Math_random_inv in H1 as [? _]; discriminate].
      apply Math_random_inv in H1 as (_ & Hd1 & _).
      apply bind_inv in H as [(r2 & w2 & H2 & H)|(e & H2 & _)];
        [|apply Math_random_inv in H2 as [? _]; discriminate].
      apply Math_random_inv in H2 as (_ & Hd2 & _).
      assert (Hw : db w2 = db w) by congruence. clear Hd1 Hd2.
      match type of H with (match ?ch with _ => _ end) _ = _ => destruct ch as [c|] end.
      * apply bind_inv in H as [([] & w4 & H4 & H)|(e & H4 & ->)].
        -- apply insert_inventory_inv in H4 as (Hu4 & Hc4 & Ht4 & (id & Hi4)).
           apply IH in H as (Hu & Ht & new & newc & Hi & Hc & Hown & Hne & Hr).
           split; [congruence|]. split; [congruence|].
           exists (mkInv id uid (card_id c) :: new), newc.
           split; [rewrite Hi, Hi4, Hw, <- app_assoc; reflexivity|].
           split; [congruence|].
           split; [constructor; [reflexivity|exact Hown]|].
           split; [exact Hne|].
           destruct r as [got'|e]; simpl.
           ++ destruct Hr as (Hl & Hg & Hn). rewrite length_app in Hg. simpl in Hg.
              split; [lia|]. split; [lia|]. discriminate.
           ++ lia.
        -- apply insert_inventory_inv in H4 as (Hu4 & Hc4 & Ht4 & Hi4).
           split; [congruence|]. split; [congruence|].
           exists [], []. rewrite !app_nil_r.
           repeat split; simpl; try congruence; auto; lia.
      * injection H as <- <-. rewrite Hw.
        repeat split; try reflexivity.
        exists [], []. rewrite !app_nil_r. repeat split; simpl; auto; lia.
Qed.

End StatementFacts.

(** ** Runs on a store that never fails *)

Lemma bind_Done {A B} (m : M A) (k : A -> M B) (w w1 : World) (a : A) :
  m w = (Done a, w1) -> bind m k w = k a w1.
Proof. unfold bind. intros ->. reflexivity. Qed.

Lemma stmt_reliable {A} (q : Query) (run : Store -> Result A * Store) (w : World) :
  stmt reliable q run w =
  (fst (run (db w)), mkWorld (snd (run (db w))) (trace w ++ [q]) (draws w)).
Proof. unfold stmt, reliable. destruct (run (db w)). reflexivity. Qed.

Section ReliableRuns.

Variable random : nat -> Q.
Hypothesis random_unit : in_unit random.

Lemma insert_inventory_ok (uid cid : Z) (w : World) :
  has_user (db w) uid = true -> has_card (db w) cid = true ->
  exists w1, insert_inventory reliable uid cid w = (Done tt, w1)
    /\ users (db w1) = users (db w) /\ cards (db w1) = cards (db w).
Proof.
  intros Hu Hc. unfold insert_inventory. rewrite stmt_reliable, Hu, Hc. simpl.
  eexists. split; [reflexivity|]. simpl. auto.
Qed.

Lemma has_user_ext (s s' : Store) (uid : Z) :
  users s' = users s -> has_user s' uid = has_user s uid.
Proof. unfold has_user. intros ->. reflexivity. Qed.

Lemma has_card_ext (s s' : Store) (cid : Z) :
  cards s' = cards s -> has_card s' cid = has_card s cid.
Proof. unfold has_card. intros ->. reflexivity. Qed.

(** With the owner's account present and the snapshot taken from the
    catalog, the loop runs to its end. *)
Lemma packLoop_total (n : nat) :
  forall (uid : Z) (cardsDb got : list CardRow) (w : World),
  has_user (db w) uid = true ->
  Forall (fun c => has_card (db w) (card_id c) = true) cardsDb ->
  exists got' w', packLoop reliable random uid cardsDb n got w = (Done got', w').
Proof.
  induction n as [|n IH]; intros uid cardsDb got w Hu Hcs.
  - simpl. unfold ret. eauto.
  - simpl. destruct cardsDb as [|c0 cs]; simpl.
    + unfold bind at 1, Math_random at 1. unfold bind at 1, Math_random at 1. simpl.
      destruct (sampled_rarity_default (random (draws w))) as (rar & d & E & Ed).
      simpl in E. rewrite E, Ed.
      unfold bind at 1, insert_card. rewrite stmt_reliable. simpl.
      set (c := mkCard _ _ _ _ _).
      match goal with |- context [bind _ _ ?w1] =>
        destruct (insert_inventory_ok uid (card_id c) w1) as (w2 & E2 & Hu2 & Hc2) end.
      { exact Hu. }
      { unfold has_card. simpl. rewrite existsb_app. simpl.
        rewrite Z.eqb_refl. apply orb_true_iff. right. reflexivity. }
      rewrite (bind_Done _ _ _ _ _ E2).
      apply IH; [|constructor].
      rewrite (has_user_ext _ _ _ Hu2). exact Hu.
    + unfold bind at 1, Math_random at 1. unfold bind at 1, Math_random at 1. simpl.
      match goal with |- context [match ?ch with Some _ => _ | None => _ end] =>
        assert (Hch : exists c, ch = Some c /\ c ∈ c0 :: cs) end.
      { destruct (filter _ (c0 :: cs)) as [|b bs] eqn:Eb.
        - simpl. apply (js_index_unit (c0 :: cs) (random (S (draws w))));
            [apply random_unit..|discriminate].
        - cbn [length Nat.ltb Nat.leb].
          destruct (js_index_unit (b :: bs) (random (S (draws w))))
            as (c & Ec & Hin); [apply random_unit..|discriminate|].
          exists c. split; [exact Ec|].
          rewrite <- Eb in Hin. apply list_elem_of_filter in Hin as [_ Hin]. exact Hin. }
      destruct Hch as (c & -> & Hin).
      rewrite Forall_forall in Hcs.
      match goal with |- context [bind _ _ ?w1] =>
        destruct (insert_inventory_ok uid (card_id c) w1) as (w2 & E2 & Hu2 & Hc2) end.
      { exact Hu. }
      { apply Hcs, Hin. }
      rewrite (bind_Done _ _ _ _ _ E2).
      apply IH.
      * rewrite (has_user_ext _ _ _ Hu2). exact Hu.
      * apply Forall_forall. intros c' Hc'.
        rewrite (has_card_ext _ _ _ Hc2). apply Hcs, Hc'.
Qed.

End ReliableRuns.

(** ** Pack generation *)

Lemma select_cards_inv (faulty : nat -> bool) (w w' : World) (r : Result (list CardRow)) :
  select_cards faulty w = (r, w') ->
  db w' = db w /\ (r = Done (cards (db w)) \/ exists e, r = Throw e).
Proof.
  unfold select_cards. intros H.
  apply stmt_inv in H as (_ & _ & [(_ & -> & ->)|(_ & H)]).
  - split; [reflexivity|]. right. eauto.
  - injection H as <- <-. auto.
Qed.

Lemma openPack_spec (faulty : nat -> bool) (random : nat -> Q) (uid : Z) (count : nat)
      (w w' : World) (r : Result (list CardRow)) :
  openPack faulty random uid count w = (r, w') ->
  users (db w') = users (db w) /\ trades (db w') = trades (db w) /\
  exists new newc,
    inventory (db w') = inventory (db w) ++ new /\
    cards (db w') = cards (db w) ++ newc /\
    Forall (fun i => inv_user i = uid) new /\
    (cards (db w) <> [] -> newc = []) /\
    match r with
    | Done got => length new = count /\ length got = count
                  /\ (cards (db w) = [] -> length newc = count)
    | Throw _ => (length new <= count)%nat /\ (count <> O -> (length new < count)%nat)
    end.
Proof.
  unfold openPack. intros H.
  apply bind_inv in H as [(cardsDb & w1 & H1 & H)|(e & H1 & ->)].
  - apply select_cards_inv in H1 as (Hw & [Hr|(e & Hr)]); [|discriminate].
    injection Hr as ->.
    apply packLoop_spec in H as (Hu & Ht & new & newc & Hi & Hc & Hown & Hne & Hr).
    rewrite Hw in *. do 2 (split; [assumption|]).
    exists new, newc. do 4 (split; [assumption|]).
    destruct r; simpl in *; [exact Hr | lia].
  - apply select_cards_inv in H1 as (-> & _).
    do 2 (split; [reflexivity|]). exists [], []. rewrite !app_nil_r.
    repeat split; simpl; auto; lia.
Qed.

Lemma openPack_total (random : nat -> Q) (uid : Z) (count : nat) (w : World) :
  in_unit random -> has_user (db w) uid = true ->
  exists got w', openPack reliable random uid count w = (Done got, w').
Proof.
  intros Hr Hu. unfold openPack, select_cards, bind at 1. rewrite stmt_reliable. simpl.
  apply packLoop_total; [exact Hr|exact Hu|].
  apply Forall_forall. intros c Hc. unfold has_card. simpl.
  apply existsb_exists. exists c. split; [apply list_elem_of_In, Hc|apply Z.eqb_refl].
Qed.

Lemma has_user_true (s : Store) (uid : Z) :
  has_user s uid = true <-> is_Some (users s !! uid).
Proof. unfold has_user. apply bool_decide_eq_true. Qed.

(** C7.  A successful [openPack uid count] appends exactly [count] inventory
    rows, all owned by [uid], whatever the catalog holds; with the owner's
    account present and a store that does not fail it is successful; and
    from an empty catalog it creates [count] catalog cards, so between 1 and
    5 of them (and 5 inventory rows) for a pack of 5. *)
Theorem openPack_exact_count (random : nat -> Q) (uid : Z) (count : nat) (w : World) :
  in_unit random -> is_Some (users (db w) !! uid) ->
  (forall faulty got w', openPack faulty random uid count w = (Done got, w') ->
     opened_pack uid count w w' /\ length got = count) /\
  exists got w',
    openPack reliable random uid count w = (Done got, w') /\
    opened_pack uid count w w' /\
    (cards (db w) = [] ->
       length (cards (db w')) = count /\
       (count = 5%nat -> (1 <= length (cards (db w')) <= 5)%nat
                         /\ opened_pack uid 5 w w')).
Proof.
  intros Hr Hu. split.
  - intros faulty got w' H.
    apply openPack_spec in H as (_ & _ & new & newc & Hi & _ & Hown & _ & Hl & Hg & _).
    split; [exists new; auto | exact Hg].
  - destruct (openPack_total random uid count w Hr) as (got & w' & H);
      [apply has_user_true, Hu|].
    exists got, w'. split; [exact H|].
    apply openPack_spec in H as (_ & _ & new & newc & Hi & Hc & Hown & _ & Hl & Hg & Hn).
    assert (Hop : opened_pack uid count w w') by (exists new; auto).
    split; [exact Hop|].
    intros He. rewrite Hc, He. simpl. specialize (Hn He).
    split; [exact Hn|]. intros ->. split; [lia|exact Hop].
Qed.

Lemma half_unit : in_unit half.
Proof. intros k. split; reflexivity || discriminate. Defined.

Lemma openPack_exact_count_witness :
  (forall faulty got w', openPack faulty half 1 5 world_one_user = (Done got, w') ->
     opened_pack 1 5 world_one_user w' /\ length got = 5%nat) /\
  exists got w',
    openPack reliable half 1 5 world_one_user = (Done got, w') /\
    opened_pack 1 5 world_one_user w' /\
    (cards (db world_one_user) = [] ->
       length (cards (db w')) = 5%nat /\
       (5%nat = 5%nat -> (1 <= length (cards (db w')) <= 5)%nat
                         /\ opened_pack 1 5 world_one_user w')).
Proof.
  apply (openPack_exact_count half 1 5 world_one_user).
  - exact half_unit.
  - exists (mkUser 0 60). vm_compute. reflexivity.
Defined.

(** C2, at a concrete run: the fourth statement of a pack of 5 fails (the
    catalog read, a card insert and its inventory insert went through); the
    first inventory row of the pack stays in the store. *)
Lemma openPack_partial_pack_persists :
  ~ pack_all_or_nothing (fail_at 3) half 1 5 world_one_user.
Proof.
  unfold pack_all_or_nothing. vm_compute. discriminate.
Qed.

(** ** Each INSERT of a pack is committed on its own *)

Lemma executed_app {A} (r : Result A) (s1 s2 : list Query) :
  (forall e, r = Throw e -> statement_failed e = true -> s2 <> []) ->
  executed r (s1 ++ s2) = s1 ++ executed r s2.
Proof.
  intros H. destruct r as [a|e]; simpl; [reflexivity|].
  destruct (statement_failed e) eqn:E; [|reflexivity].
  apply removelast_app. exact (H e eq_refl E).
Qed.

Lemma inserts_committed_step {A} (r : Result A) (w w1 w' : World)
      (s1 : list Query) (n1 : list InvRow) :
  trace w1 = trace w ++ s1 ->
  inventory (db w1) = inventory (db w) ++ n1 ->
  map inv_key n1 = inventory_inserts s1 ->
  inserts_committed r w1 w' -> inserts_committed r w w'.
Proof.
  intros Ht Hi Hk (sent & new & Ht' & Hi' & Hk' & Hne).
  exists (s1 ++ sent), (n1 ++ new).
  split; [rewrite Ht', Ht, <- app_assoc; reflexivity|].
  split; [rewrite Hi', Hi, <- app_assoc; reflexivity|].
  split.
  - rewrite executed_app by exact Hne. unfold inventory_inserts.
    rewrite map_app, flat_map_app. f_equal; assumption.
  - intros e He Hf Hnil. apply app_eq_nil in Hnil as [_ Hnil].
    exact (Hne e He Hf Hnil).
Qed.

Lemma inserts_committed_stop {A} (r : Result A) (w w' : World) (q : Query) :
  trace w' = trace w ++ [q] ->
  inventory (db w') = inventory (db w) ->
  (exists e, r = Throw e /\ statement_failed e = true) ->
  inserts_committed r w w'.
Proof.
  intros Ht Hi (e & -> & Hf). exists [q], [].
  split; [exact Ht|]. split; [rewrite app_nil_r; exact Hi|].
  split; [simpl; rewrite Hf; reflexivity|]. discriminate.
Qed.

Lemma inserts_committed_here {A} (r : Result A) (w : World) :
  (forall e, r = Throw e -> statement_failed e = false) ->
  inserts_committed r w w.
Proof.
  intros H. exists [], []. rewrite !app_nil_r. do 2 (split; [reflexivity|]).
  split.
  - destruct r as [a|e]; [reflexivity|]. simpl. rewrite (H e eq_refl). reflexivity.
  - intros e He Hf. rewrite (H e He) in Hf. discriminate Hf.
Qed.

Lemma insert_inventory_sent (faulty : nat -> bool) (uid cid : Z) (w w' : World)
      (r : Result unit) :
  insert_inventory faulty uid cid w = (r, w') ->
  trace w' = trace w ++ [InsInventory uid cid] /\
  match r with
  | Done _ => exists id, inventory (db w') = inventory (db w) ++ [mkInv id uid cid]
  | Throw e => statement_failed e = true /\ inventory (db w') = inventory (db w)
  end.
Proof.
  unfold insert_inventory. intros H.
  apply stmt_inv in H as (Ht & _ & [(_ & -> & ->)|(_ & H)]); [auto|].
  split; [exact Ht|].
  destruct (has_user (db w) uid && has_card (db w) cid);
    injection H as <- <-; simpl; eauto.
Qed.

Lemma insert_card_sent (faulty : nat -> bool) (name rarity : string) (cph : Z)
      (w w' : World) (r : Result CardRow) :
  insert_card faulty name rarity cph w = (r, w') ->
  trace w' = trace w ++ [InsCard name rarity cph] /\
  inventory (db w') = inventory (db w) /\
  forall e, r = Throw e -> statement_failed e = true.
Proof.
  unfold insert_card. intros H.
  apply stmt_inv in H as (Ht & _ & [(_ & -> & ->)|(_ & H)]).
  - split; [exact Ht|]. split; [reflexivity|]. intros e He. injection He as <-. reflexivity.
  - split; [exact Ht|]. injection H as <- <-. split; [reflexivity|]. discriminate.
Qed.

Lemma packLoop_commits (faulty : nat -> bool) (random : nat -> Q) (n : nat) :
  forall (uid : Z) (cardsDb got : list CardRow) (w w' : World) (r : Result (list CardRow)),
  packLoop faulty random uid cardsDb n got w = (r, w') ->
  inserts_committed r w w'.
Proof.
  induction n as [|n IH]; intros uid cardsDb got w w' r H.
  - injection H as <- <-. apply inserts_committed_here. discriminate.
  - simpl in H.
    assert (Hret : forall w2, trace w2 = trace w -> db w2 = db w ->
              inserts_committed r w2 w' -> inserts_committed r w w').
    { intros w2 Ht Hd. apply (inserts_committed_step r w w2 w' [] []);
        [rewrite app_nil_r; exact Ht | rewrite app_nil_r, Hd; reflexivity | reflexivity]. }
    assert (Hins : forall c w3,
              bind (insert_inventory faulty uid (card_id c))
                   (fun _ => packLoop faulty random uid cardsDb n (got ++ [c])) w3 = (r, w') ->
              inserts_committed r w3 w').
    { intros c w3 H3.
      apply bind_inv in H3 as [([] & w4 & H4 & H3)|(e & H4 & ->)];
        apply insert_inventory_sent in H4 as (Ht4 & Hi4).
      - destruct Hi4 as (id & Hi4).
        apply (inserts_committed_step r w3 w4 w' [InsInventory uid (card_id c)]
                                      [mkInv id uid (card_id c)] Ht4 Hi4 eq_refl).
        eapply IH, H3.
      - destruct Hi4 as (Hf & Hi4).
        eapply inserts_committed_stop; eauto. }
    destruct cardsDb as [|c0 cs]; simpl in H.
    + apply bind_inv in H as [(r1 & w1 & H1 & H)|(e & H1 & _)];
        [|apply Math_random_inv in H1 as [? _]; discriminate].
      apply Math_random_inv in H1 as (_ & Hd1 & Ht1).
      apply bind_inv in H as [(r2 & w2 & H2 & H)|(e & H2 & _)];
        [|apply Math_random_inv in H2 as [? _]; discriminate].
      apply Math_random_inv in H2 as (_ & Hd2 & Ht2).
      apply (Hret w2); [congruence|congruence|].
      assert (Hstop : (Throw TypeError : Result (list CardRow), w2) = (r, w') ->
                      inserts_committed r w2 w').
      { intros He. injection He as <- <-. apply inserts_committed_here.
        intros e He. injection He as <-. reflexivity. }
      destruct (weightedChoice _ _ r1) as [rar|]; [|exact (Hstop H)].
      destruct (rarity_default rar) as [d|]; [|exact (Hstop H)].
      apply bind_inv in H as [(c & w3 & H3 & H)|(e & H3 & ->)];
        apply insert_card_sent in H3 as (Ht3 & Hi3 & Hf3).
      * eapply (inserts_committed_step r w2 w3 w' _ []);
          [exact Ht3 | rewrite app_nil_r; exact Hi3 | reflexivity |].
        apply (Hins c w3 H).
      * eapply inserts_committed_stop; eauto.
    + apply bind_inv in H as [(r1 & w1 & H1 & H)|(e & H1 & _)];
        [|apply Math_random_inv in H1 as [? _]; discriminate].
      apply Math_random_inv in H1 as (_ & Hd1 & Ht1).
      apply bind_inv in H as [(r2 & w2 & H2 & H)|(e & H2 & _)];
        [|apply Math_random_inv in H2 as [? _]; discriminate].
      apply Math_random_inv in H2 as (_ & Hd2 & Ht2).
      apply (Hret w2); [congruence|congruence|].
      match type of H with (match ?ch with _ => _ end) _ = _ => destruct ch as [c|] end.
      * apply (Hins c w2 H).
      * injection H as <- <-. apply inserts_committed_here.
        intros e He. injection He as <-. reflexivity.
Qed.

(** C2 (as the code has it).  Opening a pack is not atomic: every INSERT
    into the inventory is committed as it is executed.  However the run
    ends, the rows it has appended are exactly those of the inventory
    INSERTs it executed, one row each and in order (the statement that
    failed, if one did, is not executed); all belong to [uid]; a pack that
    ends normally has appended [count] rows, one that fails fewer. *)
Theorem openPack_commits_each_insert (faulty : nat -> bool) (random : nat -> Q)
        (uid : Z) (count : nat) (w w' : World) (r : Result (list CardRow)) :
  openPack faulty random uid count w = (r, w') ->
  exists sent new,
    trace w' = trace w ++ sent /\
    inventory (db w') = inventory (db w) ++ new /\
    map inv_key new = inventory_inserts (executed r sent) /\
    Forall (fun i => inv_user i = uid) new /\
    match r with
    | Done _ => length new = count
    | Throw _ => (length new <= count)%nat /\ (count <> O -> (length new < count)%nat)
    end.
Proof.
  intros H.
  assert (Hc : inserts_committed r w w').
  { unfold openPack in H.
    apply bind_inv in H as [(cardsDb & w1 & H1 & H)|(e & H1 & ->)]; unfold select_cards in H1;
      apply stmt_inv in H1 as (Ht1 & _ & [(_ & Hr1 & Hd1)|(_ & Hrun)]).
    - discriminate Hr1.
    - injection Hrun as _ Hd1.
      apply (inserts_committed_step r w w1 w' [SelCards] []);
        [exact Ht1 | rewrite app_nil_r, <- Hd1; reflexivity | reflexivity |].
      eapply packLoop_commits, H.
    - eapply inserts_committed_stop; [exact Ht1 | rewrite Hd1; reflexivity |].
      injection Hr1 as ->. eexists. split; reflexivity.
    - discriminate Hrun. }
  destruct Hc as (sent & new & Ht & Hi & Hk & _).
  apply openPack_spec in H as (_ & _ & new' & newc & Hi' & _ & Hown & _ & Hr).
  assert (new' = new) as -> by (eapply app_inv_head; rewrite <- Hi, <- Hi'; reflexivity).
  exists sent, new. do 4 (split; [assumption|]).
  destruct r; [apply Hr|exact Hr].
Qed.

Lemma openPack_commits_each_insert_witness :
  let w' := after (openPack (fail_at 4) half 1 5) world_one_user in
  let r : Result (list CardRow) := Throw (DbError (InsInventory 1 2)) in
  exists sent new,
    trace w' = trace world_one_user ++ sent /\
    inventory (db w') = inventory (db world_one_user) ++ new /\
    map inv_key new = inventory_inserts (executed r sent) /\
    Forall (fun i => inv_user i = 1) new /\
    match r with
    | Done _ => length new = 5%nat
    | Throw _ => (length new <= 5)%nat /\ (5%nat <> O -> (length new < 5)%nat)
    end.
Proof.
  intros w' r.
  apply (openPack_commits_each_insert (fail_at 4) half 1 5 world_one_user w' r).
  vm_compute. reflexivity.
Defined.

(** ** Shop purchase *)

Lemma stmt_ok {A} (faulty : nat -> bool) (q : Query) (run : Store -> Result A * Store)
      (w : World) :
  faulty (length (trace w)) = false ->
  stmt faulty q run w =
  (fst (run (db w)), mkWorld (snd (run (db w))) (trace w ++ [q]) (draws w)).
Proof. unfold stmt. intros ->. destruct (run (db w)). reflexivity. Qed.

Lemma alter_present (m : gmap Z UserRow) (f : UserRow -> UserRow) (uid : Z) (row : UserRow) :
  m !! uid = Some row -> alter f uid m !! uid = Some (f row).
Proof. intros H. rewrite lookup_alter_eq, H. reflexivity. Qed.

(** Once the balance read and the debit went through, the debit stays,
    however the pack generation ends. *)
Lemma buyPack_debits (faulty : nat -> bool) (random : nat -> Q) (uid : Z) (count : nat)
      (price : Z) (w w' : World) (row : UserRow) (r : Result Reply) :
  users (db w) !! uid = Some row -> price <= coins row ->
  faulty (length (trace w)) = false -> faulty (S (length (trace w))) = false ->
  buyPack faulty random uid count price w = (r, w') ->
  users (db w') = alter (add_coins (- price)) uid (users (db w)) /\
  trades (db w') = trades (db w) /\
  exists new,
    inventory (db w') = inventory (db w) ++ new /\
    Forall (fun i => inv_user i = uid) new /\
    match r with
    | Done rep => length new = count /\ exists got, rep = Bought got /\ length got = count
    | Throw _ => (length new <= count)%nat
    end.
Proof.
  intros Hrow Hle Hf0 Hf1 H.
  unfold buyPack, bind at 1, select_coins in H.
  rewrite stmt_ok in H by exact Hf0. simpl in H. rewrite Hrow in H. simpl in H.
  destruct (Z.ltb_spec (coins row) price) as [?|_]; [lia|].
  unfold bind at 1, update_coins_sub in H.
  rewrite stmt_ok in H
    by (simpl; rewrite length_app, Nat.add_1_r; exact Hf1).
  simpl in H.
  apply bind_inv in H as [(got & w1 & H1 & H)|(e & H1 & ->)].
  - injection H as <- <-.
    apply openPack_spec in H1 as (Hu & Ht & new & newc & Hi & _ & Hown & _ & Hl & Hg & _).
    simpl in *. do 2 (split; [assumption|]). exists new. eauto 8.
  - apply openPack_spec in H1 as (Hu & Ht & new & newc & Hi & _ & Hown & _ & Hl & _).
    simpl in *. do 2 (split; [assumption|]). exists new. auto.
Qed.

Lemma buyPack_total (random : nat -> Q) (uid : Z) (count : nat) (price : Z)
      (w : World) (row : UserRow) :
  in_unit random -> users (db w) !! uid = Some row -> price <= coins row ->
  exists got w', buyPack reliable random uid count price w = (Done (Bought got), w').
Proof.
  intros Hr Hrow Hle.
  unfold buyPack, bind at 1, select_coins. rewrite stmt_reliable. simpl.
  rewrite Hrow. simpl.
  destruct (Z.ltb_spec (coins row) price) as [?|_]; [lia|].
  unfold bind at 1, update_coins_sub. rewrite stmt_reliable. simpl.
  match goal with |- context [bind _ _ ?w1] =>
    destruct (openPack_total random uid count w1 Hr) as (got & w' & E) end.
  { apply has_user_true. simpl. rewrite (alter_present _ _ _ _ Hrow). eauto. }
  rewrite (bind_Done _ _ _ _ _ E). unfold ret. eauto.
Qed.

(** C6.  With [balance < price] the purchase answers InsufficientFunds and
    the store is left as it was; with [balance >= price] it debits exactly
    [price] and appends [count] inventory rows of the buyer. *)
Theorem buyPack_contract (random : nat -> Q) (uid : Z) (count : nat) (price : Z)
        (w : World) (row : UserRow) :
  in_unit random -> users (db w) !! uid = Some row ->
  (coins row < price ->
     exists w', buyPack reliable random uid count price w = (Done InsufficientFunds, w')
       /\ db w' = db w) /\
  (price <= coins row ->
     exists got w',
       buyPack reliable random uid count price w = (Done (Bought got), w') /\
       users (db w') !! uid = Some (mkUser (last_pack row) (coins row - price)) /\
       length got = count /\ opened_pack uid count w w').
Proof.
  intros Hr Hrow. split.
  - intros Hlt. unfold buyPack, bind at 1, select_coins. rewrite stmt_reliable. simpl.
    rewrite Hrow. simpl.
    destruct (Z.ltb_spec (coins row) price) as [_|?]; [|lia].
    unfold ret. eexists. split; reflexivity.
  - intros Hle.
    destruct (buyPack_total random uid count price w row Hr Hrow Hle) as (got & w' & H).
    exists got, w'. split; [exact H|].
    apply (buyPack_debits reliable random uid count price w w' row) in H
      as (Hu & _ & new & Hi & Hown & Hl & got' & Hg & Hlg); try assumption; try reflexivity.
    injection Hg as ->.
    split; [rewrite Hu, (alter_present _ _ _ _ Hrow); reflexivity|].
    split; [exact Hlg|]. exists new. auto.
Qed.

(** The 10-card bundle at 60 coins, bought with exactly 60 and with 59. *)
Lemma buyPack_contract_witness :
  (60 < 60 ->
     exists w', buyPack reliable half 1 10 60 world_one_user = (Done InsufficientFunds, w')
       /\ db w' = db world_one_user) /\
  (60 <= 60 ->
     exists got w',
       buyPack reliable half 1 10 60 world_one_user = (Done (Bought got), w') /\
       users (db w') !! 1 = Some (mkUser 0 (60 - 60)) /\
       length got = 10%nat /\ opened_pack 1 10 world_one_user w').
Proof.
  apply (buyPack_contract half 1 10 60 world_one_user (mkUser 0 60)).
  - exact half_unit.
  - vm_compute. reflexivity.
Defined.

Example buyPack_sixty_of_sixty :
  let w' := snd (buyPack reliable half 1 10 60 world_one_user) in
  coins <$> users (db w') !! 1 = Some 0 /\ length (inventory (db w')) = 10%nat.
Proof. vm_compute. split; reflexivity. Qed.

Example buyPack_sixty_of_fifty_nine :
  let w := mkWorld (mkStore {[ 1 := mkUser 0 59 ]} [] 0 [] 0 [] 0) [] 0 in
  fst (buyPack reliable half 1 10 60 w) = Done InsufficientFunds
  /\ db (snd (buyPack reliable half 1 10 60 w)) = db w.
Proof. vm_compute. split; reflexivity. Qed.

(** C10.  A buyer without an account row is read as balance 0: for a
    positive price the purchase answers InsufficientFunds after the balance
    read alone, so no account row and no inventory row is created; the three
    shop buttons all have a positive price. *)
Theorem buyPack_without_account (random : nat -> Q) (uid : Z) (count : nat) (price : Z)
        (w : World) :
  users (db w) !! uid = None -> 0 < price ->
  buyPack reliable random uid count price w
    = (Done InsufficientFunds, mkWorld (db w) (trace w ++ [SelCoins uid]) (draws w))
  /\ forall key, is_Some (shop_map key) ->
       buy_action reliable random uid key w
         = (Done InsufficientFunds, mkWorld (db w) (trace w ++ [SelCoins uid]) (draws w)).
Proof.
  intros Hnone Hpos.
  assert (Hbuy : forall c p, 0 < p ->
    buyPack reliable random uid c p w
      = (Done InsufficientFunds, mkWorld (db w) (trace w ++ [SelCoins uid]) (draws w))).
  { intros c p Hp. unfold buyPack, bind at 1, select_coins. rewrite stmt_reliable. simpl.
    rewrite Hnone. simpl.
    destruct (Z.ltb_spec 0 p) as [_|?]; [reflexivity|lia]. }
  split; [apply Hbuy, Hpos|].
  intros key [[c p] Hk]. unfold buy_action. rewrite Hk.
  apply Hbuy. unfold shop_map in Hk.
  repeat (destruct (decide _) in Hk; [injection Hk as <- <-; lia|]). discriminate.
Qed.

Lemma buyPack_without_account_witness :
  buyPack reliable half 7 10 60 world_one_user
    = (Done InsufficientFunds,
       mkWorld (db world_one_user) (trace world_one_user ++ [SelCoins 7])
               (draws world_one_user))
  /\ forall key, is_Some (shop_map key) ->
       buy_action reliable half 7 key world_one_user
         = (Done InsufficientFunds,
            mkWorld (db world_one_user) (trace world_one_user ++ [SelCoins 7])
                    (draws world_one_user)).
Proof.
  apply (buyPack_without_account half 7 10 60 world_one_user).
  - vm_compute. reflexivity.
  - lia.
Defined.

(** C3, at a concrete run: a buyer with 60 coins buys the 3-card bundle for
    25; the balance read, the debit and the catalog read go through, the
    first card insert fails.  The balance is 35 afterwards. *)
Lemma buyPack_debit_not_rolled_back :
  ~ debit_rolled_back (fail_at 3) half 1 3 25 world_one_user.
Proof.
  intros H.
  specialize (H (mkUser 0 60) (DbError (InsCard "Card 5500" "common" 1))
                (snd (buyPack (fail_at 3) half 1 3 25 world_one_user))).
  assert (E : coins <$> users (db (snd (buyPack (fail_at 3) half 1 3 25 world_one_user))) !! 1
              = Some 60).
  { apply H; vm_compute; (reflexivity || discriminate). }
  vm_compute in E. discriminate E.
Qed.

(** C3 (as the code has it).  When the pack generation fails after the
    debit, the debit stays: the balance after the failed purchase is the
    balance before less [price]. *)
Theorem buyPack_failed_pack_keeps_debit (faulty : nat -> bool) (random : nat -> Q)
        (uid : Z) (count : nat) (price : Z) (w w' : World) (row : UserRow) (e : Exn) :
  users (db w) !! uid = Some row -> price <= coins row ->
  faulty (length (trace w)) = false -> faulty (S (length (trace w))) = false ->
  buyPack faulty random uid count price w = (Throw e, w') ->
  coins <$> users (db w') !! uid = Some (coins row - price).
Proof.
  intros Hrow Hle Hf0 Hf1 H.
  apply (buyPack_debits faulty random uid count price w w' row) in H as (Hu & _);
    try assumption.
  rewrite Hu, (alter_present _ _ _ _ Hrow). reflexivity.
Qed.

Lemma buyPack_failed_pack_keeps_debit_witness :
  coins <$> users (db (snd (buyPack (fail_at 3) half 1 3 25 world_one_user))) !! 1
  = Some (60 - 25).
Proof.
  apply (buyPack_failed_pack_keeps_debit (fail_at 3) half 1 3 25 world_one_user
           (snd (buyPack (fail_at 3) half 1 3 25 world_one_user)) (mkUser 0 60)
           (DbError (InsCard "Card 5500" "common" 1))).
  - vm_compute. reflexivity.
  - simpl. lia.
  - reflexivity.
  - reflexivity.
  - vm_compute. reflexivity.
Defined.

(** ** The free pack and its cooldown *)

Section FreePack.

Variable random : nat -> Q.
Variable COOLDOWN_MINUTES : Z.
Variable zone_offset : Z -> Z.

Abbreviation window := (cooldown_window COOLDOWN_MINUTES).
Abbreviation last_read := (last_pack_read zone_offset).

(** A claim judged to be inside the window is refused and changes nothing
    but the account row [ensureUser] may create. *)
Lemma free_pack_blocked (uid now : Z) (w : World) :
  now - last_read (db w) uid < window ->
  exists w',
    free_pack reliable random COOLDOWN_MINUTES zone_offset uid now w
      = (Done (CooldownActive (ceil_div (window - (now - last_read (db w) uid)) 60000)), w')
    /\ last_pack_of (db w') uid = last_pack_of (db w) uid
    /\ inventory (db w') = inventory (db w)
    /\ cards (db w') = cards (db w).
Proof.
  unfold last_pack_read, last_pack_of, cooldown_window. intros Hlt.
  unfold free_pack, bind at 1, ensureUser. rewrite stmt_reliable. simpl.
  unfold bind at 1, select_last_pack. rewrite stmt_reliable. simpl.
  destruct (users (db w) !! uid) as [row|] eqn:E; simpl.
  - rewrite E. simpl.
    match goal with |- context [Z.ltb ?a ?b] =>
      destruct (Z.ltb_spec a b) as [_|?]; [|lia] end.
    unfold ret. eexists. split; [reflexivity|]. simpl. rewrite E. auto.
  - rewrite lookup_insert_eq. simpl.
    match goal with |- context [Z.ltb ?a ?b] =>
      destruct (Z.ltb_spec a b) as [_|?]; [|lia] end.
    unfold ret. eexists. split; [reflexivity|]. simpl. rewrite lookup_insert_eq. auto.
Qed.

Hypothesis random_unit : in_unit random.

(** A claim judged to be outside the window stores [now] and opens five. *)
Lemma free_pack_opens (uid now : Z) (w : World) :
  window <= now - last_read (db w) uid ->
  exists got w',
    free_pack reliable random COOLDOWN_MINUTES zone_offset uid now w
      = (Done (PackOpened got), w')
    /\ length got = 5%nat
    /\ last_pack_of (db w') uid = now
    /\ opened_pack uid 5 w w'.
Proof.
  unfold last_pack_read, last_pack_of, cooldown_window. intros Hge.
  unfold free_pack, bind at 1, ensureUser. rewrite stmt_reliable. simpl.
  unfold bind at 1, select_last_pack. rewrite stmt_reliable. simpl.
  set (s1 := match users (db w) !! uid with
             | Some _ => db w
             | None => set_users (insert uid (mkUser 0 0)) (db w)
             end).
  assert (Hs1 : exists row, users s1 !! uid = Some row
                  /\ last_pack row = match users (db w) !! uid with
                                     | Some r => last_pack r | None => 0 end
                  /\ inventory s1 = inventory (db w)).
  { subst s1. destruct (users (db w) !! uid) as [row|] eqn:E.
    - exists row. auto.
    - exists (mkUser 0 0). simpl. rewrite lookup_insert_eq. auto. }
  destruct Hs1 as (row & Hrow & Hlast & Hinv). rewrite Hrow. simpl. rewrite Hlast.
  match goal with |- context [Z.ltb ?a ?b] =>
    destruct (Z.ltb_spec a b) as [?|_]; [lia|] end.
  unfold bind at 1, update_last_pack. rewrite stmt_reliable. simpl.
  match goal with |- context [bind _ _ ?w2] =>
    destruct (openPack_total random uid 5 w2 random_unit) as (got & w' & H) end.
  { apply has_user_true. simpl. rewrite (alter_present _ _ _ _ Hrow). eauto. }
  rewrite (bind_Done _ _ _ _ _ H). unfold ret. exists got, w'.
  split; [reflexivity|].
  apply openPack_spec in H as (Hu & _ & new & newc & Hi & _ & Hown & _ & Hl & Hg & _).
  simpl in Hu, Hi.
  split; [exact Hg|].
  split; [rewrite Hu, (alter_present _ _ _ _ Hrow); reflexivity|].
  exists new. rewrite Hi, Hinv. auto.
Qed.

(** C5.  The stamp written for a pack is the UTC wall clock of [now] and
    is read back as a wall clock of the process's zone.  Where that zone is
    ahead of UTC by the cooldown or more, the stamp of a pack just opened
    reads as older than the window: after a first claim that succeeds at
    [t1], a second claim at any later [t2], inside the window as well,
    opens five more cards instead of answering CooldownActive. *)
Theorem free_pack_cooldown_lost_east_of_utc (uid t1 t2 : Z) (w : World) :
  window <= t1 - last_read (db w) uid ->
  t1 <= t2 ->
  window <= zone_offset t1 ->
  exists got1 w1 got2 w2,
    free_pack reliable random COOLDOWN_MINUTES zone_offset uid t1 w
      = (Done (PackOpened got1), w1)
    /\ last_pack_of (db w1) uid = t1
    /\ free_pack reliable random COOLDOWN_MINUTES zone_offset uid t2 w1
      = (Done (PackOpened got2), w2)
    /\ opened_pack uid 5 w w1
    /\ opened_pack uid 5 w1 w2.
Proof.
  intros H1 H12 Hz.
  destruct (free_pack_opens uid t1 w H1) as (got1 & w1 & E1 & _ & L1 & O1).
  destruct (free_pack_opens uid t2 w1) as (got2 & w2 & E2 & _ & _ & O2).
  { unfold last_pack_read, local_epoch. rewrite L1. lia. }
  exists got1, w1, got2, w2. auto.
Qed.

End FreePack.

(** A process three hours ahead of UTC with the default 30-minute cooldown:
    a claim at 12:00:00 UTC and one a minute later. *)
Lemma free_pack_cooldown_lost_east_of_utc_witness :
  exists got1 w1 got2 w2,
    free_pack reliable half 30 utc_plus_3 1 noon_2026 world_one_user
      = (Done (PackOpened got1), w1)
    /\ last_pack_of (db w1) 1 = noon_2026
    /\ free_pack reliable half 30 utc_plus_3 1 (noon_2026 + 60000) w1
      = (Done (PackOpened got2), w2)
    /\ opened_pack 1 5 world_one_user w1
    /\ opened_pack 1 5 w1 w2.
Proof.
  apply (free_pack_cooldown_lost_east_of_utc half 30 utc_plus_3 half_unit 1
           noon_2026 (noon_2026 + 60000) world_one_user);
    vm_compute; congruence.
Defined.

Lemma last_pack_read_utc (s : Store) (uid : Z) :
  last_pack_read utc s uid = last_pack_of s uid.
Proof. unfold last_pack_read, local_epoch, utc. lia. Qed.

(** In a process that runs in UTC the stamp reads back as written.  A claim
    inside the window answers CooldownActive with the remaining time rounded
    up to whole minutes and opens nothing; a claim outside it sets the stamp
    to [now] and opens a pack of exactly 5; of two claims inside one window
    the first succeeds and the second is refused, and a claim once the
    window has elapsed succeeds again. *)
Lemma free_pack_cooldown_in_utc (random : nat -> Q) (COOLDOWN_MINUTES : Z)
      (random_unit : in_unit random) (uid : Z) (w : World) :
  let window := cooldown_window COOLDOWN_MINUTES in
  (forall now, now - last_pack_of (db w) uid < window ->
     exists wait w',
       free_pack reliable random COOLDOWN_MINUTES utc uid now w = (Done (CooldownActive wait), w')
       /\ 60000 * (wait - 1) < window - (now - last_pack_of (db w) uid) <= 60000 * wait
       /\ last_pack_of (db w') uid = last_pack_of (db w) uid
       /\ inventory (db w') = inventory (db w)) /\
  (forall now, window <= now - last_pack_of (db w) uid ->
     exists got w',
       free_pack reliable random COOLDOWN_MINUTES utc uid now w = (Done (PackOpened got), w')
       /\ length got = 5%nat
       /\ last_pack_of (db w') uid = now
       /\ opened_pack uid 5 w w') /\
  (forall t1 t2 t3,
     window <= t1 - last_pack_of (db w) uid -> t2 - t1 < window -> window <= t3 - t1 ->
     exists got1 w1 wait w2 got3 w3,
       free_pack reliable random COOLDOWN_MINUTES utc uid t1 w = (Done (PackOpened got1), w1)
       /\ free_pack reliable random COOLDOWN_MINUTES utc uid t2 w1 = (Done (CooldownActive wait), w2)
       /\ free_pack reliable random COOLDOWN_MINUTES utc uid t3 w2 = (Done (PackOpened got3), w3)
       /\ opened_pack uid 5 w w1
       /\ inventory (db w2) = inventory (db w1)
       /\ opened_pack uid 5 w2 w3).
Proof.
  intros window. subst window. split; [|split].
  - intros now Hlt. rewrite <- last_pack_read_utc in Hlt.
    destruct (free_pack_blocked random COOLDOWN_MINUTES utc uid now w Hlt)
      as (w' & H & Hl & Hi & _).
    eexists _, w'. split; [exact H|].
    split; [rewrite <- last_pack_read_utc; apply ceil_div_spec; lia|]. split; assumption.
  - intros now Hge. apply free_pack_opens; [exact random_unit|].
    rewrite last_pack_read_utc. exact Hge.
  - intros t1 t2 t3 H1 H2 H3.
    destruct (free_pack_opens random COOLDOWN_MINUTES utc random_unit uid t1 w)
      as (got1 & w1 & E1 & _ & L1 & O1); [rewrite last_pack_read_utc; exact H1|].
    destruct (free_pack_blocked random COOLDOWN_MINUTES utc uid t2 w1)
      as (w2 & E2 & L2 & I2 & _); [rewrite last_pack_read_utc, L1; exact H2|].
    destruct (free_pack_opens random COOLDOWN_MINUTES utc random_unit uid t3 w2)
      as (got3 & w3 & E3 & _ & _ & O3); [rewrite last_pack_read_utc, L2, L1; exact H3|].
    exists got1, w1. eexists _, w2. exists got3, w3.
    repeat (split; [eassumption|]). exact O3.
Qed.

(** The same two claims in a process that runs in UTC: the second is told
    to wait 29 minutes. *)
Example free_pack_second_claim_in_utc :
  fst (free_pack reliable half 30 utc 1 (noon_2026 + 60000)
         (after (free_pack reliable half 30 utc 1 noon_2026) world_one_user))
  = Done (CooldownActive 29).
Proof. vm_compute. reflexivity. Qed.

(** ** Passive income *)

Lemma payable_cons (r : Z * Z) (rows : list (Z * Z)) :
  payable (r :: rows) = if 0 <? snd r then r :: payable rows else payable rows.
Proof.
  unfold payable. rewrite filter_cons.
  destruct (Z.ltb_spec 0 (snd r)); destruct (decide (0 < snd r)); reflexivity || lia.
Qed.

Section CreditLoop.

Variable faulty : nat -> bool.

(** While no statement of the range fails, the loop credits row after row. *)
Lemma creditLoop_ok (rows : list (Z * Z)) :
  forall w,
  (forall j, (j < length (payable rows))%nat -> faulty (length (trace w) + j) = false) ->
  creditLoop faulty rows w
  = (Done tt, mkWorld (set_users (credit_all rows) (db w))
                      (trace w ++ credit_writes rows) (draws w)).
Proof.
  induction rows as [|[u inc] rows IH]; intros w Hf.
  - simpl. unfold ret, credit_writes, credit_all. simpl. rewrite app_nil_r.
    destruct w as [[] ? ?]. reflexivity.
  - simpl. unfold credit_writes, credit_all in *. rewrite payable_cons in *. simpl in *.
    destruct (0 <? inc).
    + unfold bind, update_coins_add. rewrite stmt_ok.
      2:{ rewrite <- (Nat.add_0_r (length (trace w))). apply Hf. simpl. lia. }
      simpl. rewrite IH.
      * simpl. rewrite <- app_assoc. reflexivity.
      * intros j Hj. simpl. rewrite length_app. simpl.
        replace (length (trace w) + 1 + j)%nat with (length (trace w) + S j)%nat by lia.
        apply Hf. simpl. lia.
    + apply IH, Hf.
Qed.

Lemma creditLoop_app (l1 l2 : list (Z * Z)) (w : World) :
  creditLoop faulty (l1 ++ l2) w
  = bind (creditLoop faulty l1) (fun _ => creditLoop faulty l2) w.
Proof.
  revert w. induction l1 as [|[u inc] l1 IH]; intros w; simpl.
  - reflexivity.
  - destruct (0 <? inc).
    + unfold bind.
      destruct (update_coins_add faulty inc u w) as [[[]|e] w1]; [|reflexivity].
      rewrite IH. reflexivity.
    + apply IH.
Qed.

End CreditLoop.

(** Crediting rows with distinct users: each paid user gets its own income
    once, everybody else keeps their row. *)
Lemma credit_all_lookup (rows : list (Z * Z)) :
  forall (m : gmap Z UserRow) (uid : Z),
  NoDup (map fst rows) ->
  credit_all rows m !! uid =
  match find (fun r => bool_decide (fst r = uid)) (payable rows) with
  | Some r => add_coins (snd r) <$> m !! uid
  | None => m !! uid
  end.
Proof.
  induction rows as [|[u inc] rows IH]; intros m uid Hnd.
  - reflexivity.
  - inversion Hnd as [|? ? Hnotin Hnd']; subst.
    unfold credit_all in *. rewrite payable_cons. simpl.
    destruct (0 <? inc); [|apply IH, Hnd'].
    simpl. rewrite IH by exact Hnd'.
    destruct (decide (u = uid)) as [->|Hne].
    + rewrite bool_decide_eq_true_2 by reflexivity.
      destruct (find _ (payable rows)) as [[u' inc']|] eqn:F.
      * exfalso. apply Hnotin. apply find_some in F as [Hin Hdec].
        apply bool_decide_eq_true in Hdec. simpl in Hdec. subst u'.
        apply list_elem_of_In, in_map_iff. exists (uid, inc'). split; [reflexivity|].
        apply list_elem_of_In. apply list_elem_of_In in Hin.
        apply list_elem_of_filter in Hin as [_ Hin]. exact Hin.
      * rewrite lookup_alter_eq. reflexivity.
    + rewrite bool_decide_eq_false_2 by exact Hne.
      rewrite lookup_alter_ne by exact Hne. reflexivity.
Qed.

Lemma income_rows_NoDup (s : Store) : NoDup (map fst (income_rows s)).
Proof.
  unfold income_rows. rewrite map_map. simpl. apply NoDup_fst_map_to_list.
Qed.

Lemma income_rows_elem (s : Store) (uid inc : Z) :
  (uid, inc) ∈ income_rows s <-> is_Some (users s !! uid) /\ inc = income_of s uid.
Proof.
  unfold income_rows. rewrite list_elem_of_In, in_map_iff. split.
  - intros ([u row] & E & Hin). simpl in E. injection E as <- <-.
    apply list_elem_of_In, elem_of_map_to_list in Hin. eauto.
  - intros [[row Hrow] ->]. exists (uid, row). split; [reflexivity|].
    apply list_elem_of_In, elem_of_map_to_list, Hrow.
Qed.

(** The payable row of a user, if any, carries that user's income. *)
Lemma find_payable_income (s : Store) (uid : Z) (row : UserRow) :
  users s !! uid = Some row ->
  find (fun r => bool_decide (fst r = uid)) (payable (income_rows s))
  = if 0 <? income_of s uid then Some (uid, income_of s uid) else None.
Proof.
  intros Hrow.
  destruct (find _ _) as [[u inc]|] eqn:F.
  - apply find_some in F as [Hin Hdec]. apply bool_decide_eq_true in Hdec.
    simpl in Hdec. subst u.
    apply list_elem_of_In, list_elem_of_filter in Hin as [Hpos Hin]. simpl in Hpos.
    apply income_rows_elem in Hin as [_ ->].
    destruct (Z.ltb_spec 0 (income_of s uid)); [reflexivity|lia].
  - destruct (Z.ltb_spec 0 (income_of s uid)) as [Hpos|_]; [|reflexivity].
    exfalso.
    assert (Hin : In (uid, income_of s uid) (payable (income_rows s))).
    { apply list_elem_of_In, list_elem_of_filter. split; [exact Hpos|].
      apply income_rows_elem. eauto. }
    apply (find_none _ _ F) in Hin. simpl in Hin.
    apply bool_decide_eq_false in Hin. apply Hin. reflexivity.
Qed.

Lemma givePassiveIncomeAll_reliable (w : World) :
  givePassiveIncomeAll reliable w
  = (Done tt, mkWorld (set_users (credit_all (income_rows (db w))) (db w))
                      (trace w ++ SelIncome :: credit_writes (income_rows (db w)))
                      (draws w)).
Proof.
  unfold givePassiveIncomeAll, bind, select_income. rewrite stmt_reliable. simpl.
  rewrite creditLoop_ok by reflexivity. simpl. rewrite <- app_assoc. reflexivity.
Qed.

Lemma no_write_without_income (s : Store) (uid inc : Z) :
  income_of s uid <= 0 -> UpdCoinsAdd inc uid ∉ credit_writes (income_rows s).
Proof.
  intros Hle Hin. unfold credit_writes in Hin.
  apply list_elem_of_fmap in Hin as ([u i] & E & Hin). simpl in E. injection E as -> ->.
  apply list_elem_of_filter in Hin as [Hpos Hin]. simpl in Hpos.
  apply income_rows_elem in Hin as [_ ->]. lia.
Qed.

Example income_tick_one_and_eight :
  let w' := snd (income_tick reliable world_income) in
  users (db w') !! 1 = Some (mkUser 0 14) /\ users (db w') !! 2 = Some (mkUser 0 7)
  /\ trace w' = [SelIncome; UpdCoinsAdd 9 1].
Proof. vm_compute. repeat split; reflexivity. Qed.

Lemma credit_all_other (rows : list (Z * Z)) (m : gmap Z UserRow) (uid : Z) :
  uid ∉ map fst rows -> credit_all rows m !! uid = m !! uid.
Proof.
  revert m. induction rows as [|[u inc] rows IH]; intros m Hnotin; [reflexivity|].
  simpl in Hnotin. apply not_elem_of_cons in Hnotin as [Hne Hnotin].
  unfold credit_all in *. rewrite payable_cons. simpl.
  destruct (0 <? inc); [|apply IH, Hnotin].
  simpl. rewrite IH by exact Hnotin. apply lookup_alter_ne. congruence.
Qed.

Lemma credit_all_paid (rows : list (Z * Z)) (m : gmap Z UserRow) (uid inc : Z) :
  NoDup (map fst rows) -> (uid, inc) ∈ rows -> 0 < inc ->
  credit_all rows m !! uid = add_coins inc <$> m !! uid.
Proof.
  revert m. induction rows as [|[u i] rows IH]; intros m Hnd Hin Hpos.
  - inversion Hin.
  - simpl in Hnd. apply NoDup_cons in Hnd as [Hnotin Hnd].
    unfold credit_all in *. rewrite payable_cons. simpl.
    apply elem_of_cons in Hin as [E|Hin].
    + injection E as <- <-.
      destruct (Z.ltb_spec 0 inc) as [_|?]; [|lia]. simpl.
      fold (credit_all rows (alter (add_coins inc) uid m)).
      rewrite credit_all_other by exact Hnotin. apply lookup_alter_eq.
    + assert (Hne : u <> uid).
      { intros ->. apply Hnotin. apply list_elem_of_In, in_map_iff.
        exists (uid, inc). split; [reflexivity|apply list_elem_of_In, Hin]. }
      destruct (0 <? i); [|apply IH; assumption].
      simpl. rewrite IH by assumption. rewrite lookup_alter_ne by exact Hne. reflexivity.
Qed.

(** C9, at a concrete run: the first UPDATE of the tick (for user 2) fails;
    user 1, still to come in the loop, is not credited either. *)
Lemma income_tick_failure_not_isolated :
  ~ tick_isolates_credit_failure 1 world_two_earners.
Proof.
  intros H. specialize (H 1).
  assert (E : credited world_two_earners
                (snd (income_tick (fail_at 1) world_two_earners)) 1).
  { apply H.
    - exists (mkUser 0 0). vm_compute. reflexivity.
    - intros inc. vm_compute. congruence. }
  vm_compute in E. discriminate E.
Qed.

(** C9 (as the code has it).  The first failing credit ends the tick: the
    users credited before it keep their credit, the user whose credit failed
    and every user after it in the loop keep their old row, and the timer
    callback catches the error, so the tick ends with a logged error instead
    of an exception. *)
Theorem income_tick_stops_at_failure (w : World) (before after : list (Z * Z))
        (uid inc : Z) :
  income_rows (db w) = before ++ (uid, inc) :: after -> 0 < inc ->
  exists w',
    income_tick (fail_at (length (trace w) + 1 + length (payable before))) w
      = (IncomeError (DbError (UpdCoinsAdd inc uid)), w') /\
    (forall u i, (u, i) ∈ before -> 0 < i ->
       users (db w') !! u = add_coins i <$> users (db w) !! u) /\
    (forall u i, (u, i) ∈ (uid, inc) :: after ->
       users (db w') !! u = users (db w) !! u).
Proof.
  intros Hrows Hpos.
  set (k := (length (trace w) + 1 + length (payable before))%nat).
  pose proof (income_rows_NoDup (db w)) as Hnd. rewrite Hrows in Hnd.
  rewrite map_app in Hnd. apply NoDup_app in Hnd as (Hnd1 & Hdisj & _).
  unfold income_tick, givePassiveIncomeAll, bind at 1, select_income.
  rewrite stmt_ok by (unfold fail_at; apply Nat.eqb_neq; lia).
  simpl. rewrite Hrows, creditLoop_app. unfold bind at 1.
  rewrite creditLoop_ok.
  2:{ intros j Hj. simpl. rewrite length_app. simpl.
      unfold fail_at. apply Nat.eqb_neq. lia. }
  simpl. destruct (Z.ltb_spec 0 inc) as [_|?]; [|lia].
  unfold bind at 1, update_coins_add, stmt. simpl.
  replace (fail_at k (length ((trace w ++ [SelIncome]) ++ credit_writes before)))
    with true.
  2:{ symmetry. unfold fail_at. apply Nat.eqb_eq.
      unfold credit_writes. rewrite !length_app, length_map. simpl. lia. }
  eexists. split; [reflexivity|]. simpl. split.
  - intros u i Hin Hi. apply credit_all_paid; assumption.
  - intros u i Hin. apply credit_all_other. intros Hu.
    apply (Hdisj u Hu). apply list_elem_of_In, in_map_iff.
    exists (u, i). split; [reflexivity|apply list_elem_of_In, Hin].
Qed.

Lemma income_tick_stops_at_failure_witness :
  exists w',
    income_tick (fail_at (length (trace world_two_earners) + 1 + length (payable [])))
                world_two_earners
      = (IncomeError (DbError (UpdCoinsAdd 1 2)), w') /\
    (forall u i, (u, i) ∈ @nil (Z * Z) -> 0 < i ->
       users (db w') !! u = add_coins i <$> users (db world_two_earners) !! u) /\
    (forall u i, (u, i) ∈ [(2, 1); (1, 1)] ->
       users (db w') !! u = users (db world_two_earners) !! u).
Proof.
  apply (income_tick_stops_at_failure world_two_earners [] [(1, 1)] 2 1).
  - vm_compute. reflexivity.
  - lia.
Defined.

(** ** What a tick credits *)

Lemma sum_rates_app (l1 l2 : list Z) :
  sum_rates (l1 ++ l2) = sum_rates l1 + sum_rates l2.
Proof.
  unfold sum_rates. induction l1 as [|x l1 IH]; simpl; [reflexivity|]. rewrite IH. lia.
Qed.

Lemma card_income_rates (s : Store) (cid : Z) :
  card_income s cid
  = sum_rates (flat_map (fun c => if card_id c =? cid then [coins_per_hour c] else [])
                        (cards s)).
Proof.
  unfold card_income. induction (cards s) as [|c cs IH]; [reflexivity|].
  rewrite filter_cons. simpl.
  destruct (decide (card_id c = cid)) as [E|E]; destruct (Z.eqb_spec (card_id c) cid);
    try contradiction.
  - simpl. unfold sum_rates in *. simpl. rewrite IH. reflexivity.
  - exact IH.
Qed.

(** The query's sum is the sum of the rates of the cards behind the
    entries the user owns. *)
Lemma income_of_rates (s : Store) (uid : Z) :
  income_of s uid = sum_rates (owned_rates s uid).
Proof.
  unfold income_of, owned_rates. induction (inventory s) as [|i rest IH]; [reflexivity|].
  rewrite filter_cons. simpl.
  destruct (decide (inv_user i = uid)) as [E|E]; destruct (Z.eqb_spec (inv_user i) uid);
    try contradiction.
  - simpl. rewrite sum_rates_app, <- IH, <- card_income_rates. reflexivity.
  - exact IH.
Qed.

Lemma owned_rates_none (s : Store) (uid : Z) :
  filter (fun i => inv_user i = uid) (inventory s) = [] -> owned_rates s uid = [].
Proof.
  unfold owned_rates. induction (inventory s) as [|i rest IH]; [reflexivity|].
  rewrite filter_cons. simpl.
  destruct (decide (inv_user i = uid)) as [E|E]; [discriminate|].
  destruct (Z.eqb_spec (inv_user i) uid); [contradiction|]. exact IH.
Qed.

Lemma owned_rates_ext (s s' : Store) (uid : Z) :
  inventory s' = inventory s -> cards s' = cards s -> owned_rates s' uid = owned_rates s uid.
Proof. unfold owned_rates. intros -> ->. reflexivity. Qed.

Lemma write_with_income (s : Store) (uid : Z) (row : UserRow) :
  users s !! uid = Some row -> 0 < income_of s uid ->
  UpdCoinsAdd (income_of s uid) uid ∈ credit_writes (income_rows s).
Proof.
  intros Hrow Hpos. unfold credit_writes. apply list_elem_of_fmap.
  exists (uid, income_of s uid). split; [reflexivity|].
  apply list_elem_of_filter. split; [exact Hpos|].
  apply income_rows_elem. eauto.
Qed.

(** C8.  One tick on a store that does not fail.  Let [rates] be the
    income-per-hour of the cards behind the inventory entries [uid] owns,
    entry by entry.  The tick ends normally and changes nothing but
    balances; [uid]'s balance goes up by exactly the sum of [rates] when
    that sum is positive, with one UPDATE for [uid] carrying the sum; when
    [uid] owns no entry, or the sum is not positive, the row is unchanged
    and no UPDATE for [uid] is sent. *)
Theorem income_tick_credits (w : World) (uid : Z) (row : UserRow) (rates : list Z) :
  users (db w) !! uid = Some row ->
  owned_rates (db w) uid = rates ->
  exists w' sent,
    income_tick reliable w = (IncomeDistributed, w') /\
    trace w' = trace w ++ SelIncome :: sent /\
    inventory (db w') = inventory (db w) /\ cards (db w') = cards (db w) /\
    users (db w') !! uid
      = Some (mkUser (last_pack row) (coins row + Z.max 0 (sum_rates rates))) /\
    (0 < sum_rates rates -> UpdCoinsAdd (sum_rates rates) uid ∈ sent) /\
    (filter (fun i => inv_user i = uid) (inventory (db w)) = [] \/ sum_rates rates <= 0 ->
       users (db w') !! uid = Some row /\ forall inc, UpdCoinsAdd inc uid ∉ sent).
Proof.
  intros Hrow Hrates. pose proof (income_of_rates (db w) uid) as Hinc.
  rewrite Hrates in Hinc.
  eexists _, (credit_writes (income_rows (db w))).
  unfold income_tick. rewrite givePassiveIncomeAll_reliable.
  split; [reflexivity|]. simpl. do 3 (split; [reflexivity|]).
  assert (Hnew : credit_all (income_rows (db w)) (users (db w)) !! uid
                 = Some (mkUser (last_pack row) (coins row + Z.max 0 (sum_rates rates)))).
  { rewrite credit_all_lookup by apply income_rows_NoDup.
    rewrite (find_payable_income _ _ _ Hrow), Hrow, Hinc.
    destruct (Z.ltb_spec 0 (sum_rates rates)); simpl.
    - rewrite Z.max_r by lia. reflexivity.
    - rewrite Z.max_l, Z.add_0_r by lia. destruct row. reflexivity. }
  split; [exact Hnew|]. split.
  - intros Hpos. rewrite <- Hinc. apply (write_with_income _ _ row Hrow). lia.
  - intros Hno. assert (Hle : sum_rates rates <= 0).
    { destruct Hno as [Hno|Hle]; [|exact Hle].
      rewrite <- Hrates, (owned_rates_none _ _ Hno). reflexivity. }
    split.
    + rewrite Hnew, Z.max_l, Z.add_0_r by lia. destruct row. reflexivity.
    + intros inc. apply no_write_without_income. lia.
Qed.

(** The example of the specification: rates 1 and 8, balance 5 to 14. *)
Lemma income_tick_credits_witness :
  exists w' sent,
    income_tick reliable world_income = (IncomeDistributed, w') /\
    trace w' = trace world_income ++ SelIncome :: sent /\
    inventory (db w') = inventory (db world_income) /\
    cards (db w') = cards (db world_income) /\
    users (db w') !! 1
      = Some (mkUser (last_pack (mkUser 0 5)) (coins (mkUser 0 5) + Z.max 0 (sum_rates [1; 8]))) /\
    (0 < sum_rates [1; 8] -> UpdCoinsAdd (sum_rates [1; 8]) 1 ∈ sent) /\
    (filter (fun i => inv_user i = 1) (inventory (db world_income)) = [] \/ sum_rates [1; 8] <= 0 ->
       users (db w') !! 1 = Some (mkUser 0 5) /\ forall inc, UpdCoinsAdd inc 1 ∉ sent).
Proof.
  apply (income_tick_credits world_income 1 (mkUser 0 5) [1; 8]).
  - vm_compute. reflexivity.
  - vm_compute. reflexivity.
Defined.

(** ** Trades *)

(** On a store that does not fail the answer depends on the lookup alone:
    [tr.to_user] is the text of a BIGINT and [ctx.from.id] a number, so the
    test [!==] of l.278 holds for every trade that exists. *)
Lemma trade_accept_reliable (uid trId : Z) (w : World) :
  trade_accept reliable uid trId w
  = (Done (match find_trade (db w) trId with
           | None => NotFound
           | Some _ => NotTarget
           end),
     mkWorld (db w) (trace w ++ [SelTrade trId]) (draws w)).
Proof.
  unfold trade_accept, bind, select_trade. rewrite stmt_reliable. simpl.
  destruct (find_trade (db w) trId); reflexivity.
Qed.





(** X8.  [trade_accept] never hands an entry over.  Whatever fails and
    whoever presses, the store is left as it was; and on a store that does
    not fail every trade that exists is answered NotTarget, to its target
    as to anybody else and whatever its status, a missing one NotFound. *)
Theorem trade_accept_never_transfers (uid trId : Z) (w : World) :
  (forall faulty r w', trade_accept faulty uid trId w = (r, w') -> db w' = db w) /\
  fst (trade_accept reliable uid trId w)
  = Done (match find_trade (db w) trId with
          | None => NotFound
          | Some _ => NotTarget
          end).
Proof.
  split; [|rewrite trade_accept_reliable; reflexivity].
  intros faulty r w' H. unfold trade_accept in H.
  apply bind_inv in H as [(row & w1 & H1 & H)|(e & H1 & _)]; unfold select_trade in H1;
    apply stmt_inv in H1 as (_ & _ & [(_ & Hr1 & Hw1)|(_ & H1)]).
  - discriminate Hr1.
  - injection H1 as _ Hw1. destruct row as [tr|].
    + unfold pg_bigint, js_strict_eq in H. cbn [negb] in H.
      injection H as _ <-. symmetry. exact Hw1.
    + injection H as _ <-. symmetry. exact Hw1.
  - exact Hw1.
  - discriminate H1.
Qed.

Example trade_accept_by_target_of_pending_trade :
  fst (trade_accept reliable 2 1 world_pending_trade) = Done NotTarget
  /\ inventory (db (after (trade_accept reliable 2 1) world_pending_trade))
     = [mkInv 1 1 1].
Proof. rewrite trade_accept_reliable. unfold after. rewrite trade_accept_reliable. split; reflexivity. Qed.

(** C4.  [trade_reject] never looks the trade up and never reads who
    presses the button: it always answers TradeRejected, touching the trades
    table only.  So user 3, a stranger to the pending trade 1 (from user 1 to
    user 2), rejects it, and rejecting an id that names no trade succeeds as
    well, where [trade_accept] answers NotTarget and NotFound. *)
Theorem trade_reject_skips_checks :
  let w := world_pending_trade in
  (forall uid trId w,
     trade_reject reliable uid trId w
     = (Done TradeRejected,
        mkWorld (set_trades (update_where trade_id trId (set_status rejected)) (db w))
                (trace w ++ [UpdTradeStatus rejected trId]) (draws w))) /\
  find_trade (db w) 1 = Some (mkTrade 1 1 2 1 pending) /\
  fst (trade_accept reliable 3 1 w) = Done NotTarget /\
  fst (trade_reject reliable 3 1 w) = Done TradeRejected /\
  find_trade (db (after (trade_reject reliable 3 1) w)) 1 = Some (mkTrade 1 1 2 1 rejected) /\
  find_trade (db w) 99 = None /\
  fst (trade_accept reliable 3 99 w) = Done NotFound /\
  fst (trade_reject reliable 3 99 w) = Done TradeRejected.
Proof.
  split.
  - intros uid trId w. unfold trade_reject, bind, update_trade_status.
    rewrite stmt_reliable. reflexivity.
  - vm_compute. repeat split; reflexivity.
Qed.

(** ** The rarity policy *)

(** X3.  For a non-empty item list [weightedChoice] always answers one of
    the items, whatever the weights and the random value (also with missing
    or non-positive weights); only for an empty list is the answer undefined. *)
Theorem weightedChoice_answers_item {A} (items : list A) (weights : list Z) (r : Q) :
  (items <> [] -> exists x, weightedChoice items weights r = Some x /\ x ∈ items) /\
  weightedChoice (@nil A) weights r = None.
Proof.
  split; [apply weightedChoice_in | reflexivity].
Qed.

(** ** Accounts and trade proposals *)

Lemma ensureUser_inv (faulty : nat -> bool) (tg_id : Z) (w w' : World) (r : Result unit) :
  ensureUser faulty tg_id w = (r, w') ->
  inventory (db w') = inventory (db w) /\ cards (db w') = cards (db w) /\
  trades (db w') = trades (db w) /\ trades_seq (db w') = trades_seq (db w) /\
  match r with
  | Done _ => users (db w') = ensured tg_id (users (db w))
  | Throw _ => users (db w') = users (db w)
  end.
Proof.
  unfold ensureUser, ensured. intros H.
  apply stmt_inv in H as (_ & _ & [(_ & -> & ->)|(_ & H)]); [auto 6|].
  destruct (users (db w) !! tg_id); injection H as <- <-; simpl; auto 6.
Qed.

Lemma ensured_lookup (tg_id u : Z) (m : gmap Z UserRow) :
  ensured tg_id m !! u
  = match m !! u with
    | Some row => Some row
    | None => if decide (u = tg_id) then Some (mkUser 0 0) else None
    end.
Proof.
  unfold ensured. destruct (m !! tg_id) as [row|] eqn:E.
  - destruct (m !! u) eqn:Eu; [reflexivity|].
    destruct (decide (u = tg_id)) as [->|]; [congruence|reflexivity].
  - destruct (decide (u = tg_id)) as [->|Hne].
    + rewrite lookup_insert_eq, E. reflexivity.
    + rewrite lookup_insert_ne by congruence. destruct (m !! u); reflexivity.
Qed.

Lemma select_owner_inv (faulty : nat -> bool) (invId : Z) (w w' : World)
      (r : Result (list Z)) :
  select_owner faulty invId w = (r, w') ->
  db w' = db w /\
  (r = Done (map inv_user (filter (fun i => inv_id i = invId) (inventory (db w))))
   \/ exists e, r = Throw e).
Proof.
  unfold select_owner. intros H.
  apply stmt_inv in H as (_ & _ & [(_ & -> & ->)|(_ & H)]).
  - split; [reflexivity|]. right. eauto.
  - injection H as <- <-. auto.
Qed.

(** Whatever fails, the proposal handler leaves inventory, catalog and
    trades alone and never answers TradeSent: for an existing entry the owner
    read from the store is a text and the sender a number. *)
Lemma propose_trade_inv (faulty : nat -> bool) (uid invId toUser : Z)
      (w w' : World) (r : Result Reply) :
  propose_trade faulty uid invId toUser w = (r, w') ->
  inventory (db w') = inventory (db w) /\ cards (db w') = cards (db w) /\
  trades (db w') = trades (db w) /\
  (users (db w') = users (db w) \/ users (db w') = ensured toUser (users (db w))) /\
  forall trId, r <> Done (TradeSent trId).
Proof.
  unfold propose_trade. intros H.
  destruct ((invId =? 0) || (toUser =? 0)).
  { injection H as <- <-. do 3 (split; [reflexivity|]). split; [auto|discriminate]. }
  apply bind_inv in H as [([] & w1 & H1 & H)|(e & H1 & ->)];
    apply ensureUser_inv in H1 as (Hi1 & Hc1 & Ht1 & _ & Hu1).
  2:{ do 3 (split; [assumption|]). split; [auto|discriminate]. }
  apply bind_inv in H as [(owners & w2 & H2 & H)|(e & H2 & ->)];
    apply select_owner_inv in H2 as (Hw2 & Hr2).
  2:{ rewrite Hw2. do 3 (split; [assumption|]). split; [auto|discriminate]. }
  destruct owners as [|owner rest].
  - injection H as <- <-. rewrite Hw2.
    do 3 (split; [assumption|]). split; [auto|discriminate].
  - unfold pg_bigint, js_strict_eq in H. cbn [negb] in H.
    injection H as <- <-. rewrite Hw2.
    do 3 (split; [assumption|]). split; [auto|discriminate].
Qed.

(** X5.  Whatever fails, a proposal never moves or creates a card, and the
    only trade row it can add is one pending row from the sender, for an
    entry whose owner lookup names the sender, with both ids non-zero. *)
Theorem propose_trade_only_for_owner (faulty : nat -> bool) (uid invId toUser : Z)
        (w w' : World) (r : Result Reply) :
  propose_trade faulty uid invId toUser w = (r, w') ->
  inventory (db w') = inventory (db w) /\ cards (db w') = cards (db w) /\
  (trades (db w') = trades (db w) \/
   (trades (db w')
      = trades (db w) ++ [mkTrade (trades_seq (db w) + 1) uid toUser invId pending]
    /\ r = Done (TradeSent (trades_seq (db w) + 1))
    /\ owner_of (db w) invId = Some uid /\ invId <> 0 /\ toUser <> 0)).
Proof.
  intros H. apply propose_trade_inv in H as (Hi & Hc & Ht & _).
  do 2 (split; [assumption|]). left. exact Ht.
Qed.

(** On a store that does not fail a well-formed proposal gets as far as the
    owner lookup and no further: [ownerRes.rows[0].user_id] is the text of
    a BIGINT and [uid] a number, so the test [!==] of l.250 holds for every
    entry that exists. *)
Lemma propose_trade_reliable (uid invId toUser : Z) (w : World) :
  invId <> 0 -> toUser <> 0 ->
  propose_trade reliable uid invId toUser w
  = (Done (match owner_of (db w) invId with
           | None => InventoryNotFound
           | Some _ => NotOwner
           end),
     mkWorld (set_users (ensured toUser) (db w))
             (trace w ++ [InsUser toUser; SelOwner invId]) (draws w)).
Proof.
  intros Hi0 Ht0. unfold propose_trade.
  destruct (Z.eqb_spec invId 0); [contradiction|].
  destruct (Z.eqb_spec toUser 0); [contradiction|]. simpl.
  unfold bind at 1, ensureUser. rewrite stmt_reliable. simpl.
  set (s1 := match users (db w) !! toUser with
             | Some _ => db w
             | None => set_users (insert toUser (mkUser 0 0)) (db w)
             end).
  assert (Hs1 : s1 = set_users (ensured toUser) (db w)).
  { subst s1. unfold ensured, set_users. destruct (users (db w) !! toUser);
      [destruct (db w)|]; reflexivity. }
  rewrite Hs1. clear s1 Hs1.
  unfold bind at 1, select_owner. rewrite stmt_reliable. simpl.
  rewrite <- app_assoc. simpl.
  unfold owner_of.
  destruct (map inv_user _) as [|owner rest]; reflexivity.
Qed.

(** X6.  A proposal for an entry whose owner lookup does not name the sender
    is refused (InventoryNotFound when no entry has the id, NotOwner
    otherwise) and adds no trade; the target's account row is created all
    the same, [ensureUser toUser] running before the check. *)
Theorem propose_trade_refused_creates_target (uid invId toUser : Z) (w : World) :
  invId <> 0 -> toUser <> 0 -> owner_of (db w) invId <> Some uid ->
  exists w',
    propose_trade reliable uid invId toUser w
      = (Done (match owner_of (db w) invId with
               | None => InventoryNotFound
               | Some _ => NotOwner
               end), w') /\
    trades (db w') = trades (db w) /\ inventory (db w') = inventory (db w) /\
    users (db w') = ensured toUser (users (db w)) /\
    is_Some (users (db w') !! toUser).
Proof.
  intros Hi0 Ht0 _. eexists. split; [apply propose_trade_reliable; assumption|].
  simpl. do 3 (split; [reflexivity|]).
  rewrite ensured_lookup. destruct (users (db w) !! toUser); [eauto|].
  destruct (decide (toUser = toUser)); [eauto|contradiction].
Qed.

Lemma propose_trade_refused_creates_target_witness :
  exists w',
    propose_trade reliable 2 1 7 world_traders
      = (Done (match owner_of (db world_traders) 1 with
               | None => InventoryNotFound
               | Some _ => NotOwner
               end), w') /\
    trades (db w') = trades (db world_traders) /\
    inventory (db w') = inventory (db world_traders) /\
    users (db w') = ensured 7 (users (db world_traders)) /\
    is_Some (users (db w') !! 7).
Proof.
  apply (propose_trade_refused_creates_target 2 1 7 world_traders).
  - lia.
  - lia.
  - vm_compute. congruence.
Defined.

Lemma propose_trade_only_for_owner_witness :
  inventory (db (after (propose_trade reliable 1 1 2) world_traders))
    = inventory (db world_traders) /\
  cards (db (after (propose_trade reliable 1 1 2) world_traders))
    = cards (db world_traders) /\
  (trades (db (after (propose_trade reliable 1 1 2) world_traders))
     = trades (db world_traders) \/
   (trades (db (after (propose_trade reliable 1 1 2) world_traders))
      = trades (db world_traders)
        ++ [mkTrade (trades_seq (db world_traders) + 1) 1 2 1 pending]
    /\ Done NotOwner = Done (TradeSent (trades_seq (db world_traders) + 1))
    /\ owner_of (db world_traders) 1 = Some 1 /\ 1 <> 0 /\ 2 <> 0)).
Proof.
  apply (propose_trade_only_for_owner reliable 1 1 2 world_traders
           (after (propose_trade reliable 1 1 2) world_traders) (Done NotOwner)).
  vm_compute. reflexivity.
Defined.

(** X7.  The owner's own proposal is refused.  On a store that does not
    fail, a well-formed proposal by the very user the entry belongs to is
    answered NotOwner: no trade is recorded and the entry stays, while the
    target's account row is created.  Under any fault plan no proposal is
    ever answered TradeSent. *)
Theorem propose_trade_refuses_owner (uid invId toUser : Z) (w : World) :
  invId <> 0 -> toUser <> 0 -> owner_of (db w) invId = Some uid ->
  (exists w',
     propose_trade reliable uid invId toUser w = (Done NotOwner, w') /\
     trades (db w') = trades (db w) /\ inventory (db w') = inventory (db w) /\
     users (db w') = ensured toUser (users (db w))) /\
  (forall faulty r w', propose_trade faulty uid invId toUser w = (r, w') ->
     trades (db w') = trades (db w) /\ forall trId, r <> Done (TradeSent trId)).
Proof.
  intros Hi0 Ht0 Hown. split.
  - eexists. split; [rewrite propose_trade_reliable, Hown by assumption; reflexivity|].
    simpl. auto.
  - intros faulty r w' H. apply propose_trade_inv in H as (_ & _ & Ht & _ & Hr). auto.
Qed.

Lemma propose_trade_refuses_owner_witness :
  (exists w',
     propose_trade reliable 1 1 2 world_traders = (Done NotOwner, w') /\
     trades (db w') = trades (db world_traders) /\
     inventory (db w') = inventory (db world_traders) /\
     users (db w') = ensured 2 (users (db world_traders))) /\
  (forall faulty r w', propose_trade faulty 1 1 2 world_traders = (r, w') ->
     trades (db w') = trades (db world_traders) /\ forall trId, r <> Done (TradeSent trId)).
Proof.
  apply (propose_trade_refuses_owner 1 1 2 world_traders); [lia|lia|reflexivity].
Defined.

(** ** What a pack is made of *)

Lemma js_index_elem {A} (arr : list A) (x : Q) (c : A) :
  js_index arr x = Some c -> c ∈ arr.
Proof.
  unfold js_index. destruct (Qfloor x <? 0); [discriminate|].
  apply list_elem_of_lookup_2.
Qed.

Lemma insert_inventory_done (faulty : nat -> bool) (uid cid : Z) (w w' : World) :
  insert_inventory faulty uid cid w = (Done tt, w') ->
  draws w' = draws w /\
  db w' = mkStore (users (db w)) (cards (db w)) (cards_seq (db w))
                  (inventory (db w) ++ [mkInv (inventory_seq (db w) + 1) uid cid])
                  (inventory_seq (db w) + 1) (trades (db w)) (trades_seq (db w)).
Proof.
  unfold insert_inventory. intros H.
  apply stmt_inv in H as (_ & Hd & [(_ & ? & _)|(_ & H)]); [discriminate|].
  destruct (has_user (db w) uid && has_card (db w) cid); [|discriminate].
  injection H as <-. auto.
Qed.

Lemma insert_card_done (faulty : nat -> bool) (name rarity : string) (cph : Z)
      (w w' : World) (c : CardRow) :
  insert_card faulty name rarity cph w = (Done c, w') ->
  draws w' = draws w /\
  c = mkCard (cards_seq (db w) + 1) name rarity None cph /\
  db w' = mkStore (users (db w)) (cards (db w) ++ [c]) (cards_seq (db w) + 1)
                  (inventory (db w)) (inventory_seq (db w))
                  (trades (db w)) (trades_seq (db w)).
Proof.
  unfold insert_card. intros H.
  apply stmt_inv in H as (_ & Hd & [(_ & ? & _)|(_ & H)]); [discriminate|].
  injection H as <- <-. auto.
Qed.

Section PackContents.

Variable faulty : nat -> bool.
Variable random : nat -> Q.

(** A completed loop over a non-empty snapshot: copy [i] is a card of the
    snapshot, of the rarity sampled for it whenever the snapshot has one. *)
Lemma packLoop_picks (uid : Z) (cardsDb : list CardRow) (n : nat) :
  forall (got got' : list CardRow) (w w' : World),
  cardsDb <> [] ->
  packLoop faulty random uid cardsDb n got w = (Done got', w') ->
  exists picked new,
    got' = got ++ picked /\ length picked = n /\
    inventory (db w') = inventory (db w) ++ new /\
    map inv_card new = map card_id picked /\
    forall i c, picked !! i = Some c ->
      c ∈ cardsDb /\
      (forall c', c' ∈ cardsDb ->
         Some (card_rarity c') = sampled_rarity random (draws w + 2 * i) ->
         Some (card_rarity c) = sampled_rarity random (draws w + 2 * i)).
Proof.
  induction n as [|n IH]; intros got got' w w' Hne H.
  - injection H as <- <-. exists [], []. rewrite !app_nil_r.
    do 4 (split; [reflexivity|]). intros i c Hi. discriminate.
  - simpl in H. destruct cardsDb as [|c0 cs] eqn:Ecs; [contradiction|].
    rewrite <- Ecs in *. assert (Hl : (0 <? length cardsDb)%nat = true)
      by (rewrite Ecs; reflexivity).
    rewrite Hl in H.
    unfold bind at 1, Math_random at 1 in H. unfold bind at 1, Math_random at 1 in H.
    cbn [db trace draws] in H.
    match type of H with (match ?ch with _ => _ end) _ = _ =>
      destruct ch as [c|] eqn:Ech; [|discriminate] end.
    set (rar := sampled_rarity random (draws w)).
    set (bucket := filter (fun c => Some (card_rarity c) = rar) cardsDb).
    change ((if (0 <? length bucket)%nat
             then js_index bucket
                    (random (S (draws w)) * inject_Z (Z.of_nat (length bucket)))%Q
             else js_index cardsDb
                    (random (S (draws w)) * inject_Z (Z.of_nat (length cardsDb)))%Q)
            = Some c) in Ech.
    apply bind_inv in H as [([] & w4 & H4 & H)|(e & _ & ?)]; [|discriminate].
    apply insert_inventory_done in H4 as (Hd4 & Hdb4). cbn [db draws] in Hd4, Hdb4.
    apply IH in H as (picked & new & Hg & Hlen & Hi & Hmap & Hp); [|exact Hne].
    exists (c :: picked), (mkInv (inventory_seq (db w) + 1) uid (card_id c) :: new).
    split; [rewrite Hg, <- app_assoc; reflexivity|].
    split; [simpl; lia|].
    split; [rewrite Hi, Hdb4; simpl; rewrite <- app_assoc; reflexivity|].
    split; [simpl; congruence|].
    intros [|i] c1 Hc1.
    + injection Hc1 as <-. rewrite Nat.mul_0_r, Nat.add_0_r. fold rar.
      destruct bucket as [|b bs] eqn:Eb; cbn [length Nat.ltb Nat.leb] in Ech.
      * apply js_index_elem in Ech. split; [exact Ech|].
        intros c' Hc' Hr. exfalso.
        assert (Hin : c' ∈ bucket) by (apply list_elem_of_filter; auto).
        rewrite Eb in Hin. inversion Hin.
      * apply js_index_elem in Ech. rewrite <- Eb in Ech.
        apply list_elem_of_filter in Ech as [Hr Hin]. auto.
    + destruct (Hp i c1 Hc1) as [Hin Hr]. split; [exact Hin|].
      rewrite Hd4 in Hr.
      replace (draws w + 2 * S i)%nat with (S (S (draws w)) + 2 * i)%nat by lia.
      exact Hr.
Qed.

End PackContents.

(** X9.  A pack that completes on a non-empty catalog leaves the catalog as
    it is; each of its [count] copies is a catalog card, referenced by the
    inventory row added for it, and has the rarity sampled for that copy
    whenever the catalog holds a card of that rarity (any card otherwise). *)
Theorem openPack_draws_from_catalog (faulty : nat -> bool) (random : nat -> Q)
        (uid : Z) (count : nat) (w w' : World) (got : list CardRow) :
  cards (db w) <> [] ->
  openPack faulty random uid count w = (Done got, w') ->
  cards (db w') = cards (db w) /\ length got = count /\
  (exists new, inventory (db w') = inventory (db w) ++ new
     /\ map inv_card new = map card_id got) /\
  forall i c, got !! i = Some c ->
    c ∈ cards (db w) /\
    (forall c', c' ∈ cards (db w) ->
       Some (card_rarity c') = sampled_rarity random (draws w + 2 * i) ->
       Some (card_rarity c) = sampled_rarity random (draws w + 2 * i)).
Proof.
  intros Hne H. pose proof H as H0.
  apply openPack_spec in H0 as (_ & _ & _ & newc & _ & Hc & _ & Hnil & _ & Hlen & _).
  rewrite (Hnil Hne), app_nil_r in Hc.
  split; [exact Hc|]. split; [exact Hlen|].
  unfold openPack in H.
  apply bind_inv in H as [(cardsDb & w1 & H1 & H)|(e & _ & ?)]; [|discriminate].
  unfold select_cards in H1.
  apply stmt_inv in H1 as (_ & Hd1 & [(_ & ? & _)|(_ & H1)]); [discriminate|].
  injection H1 as <- Hdb1.
  apply packLoop_picks in H as (picked & new & Hg & _ & Hi & Hmap & Hp); [|exact Hne].
  simpl in Hg. subst picked. rewrite <- Hdb1, Hd1 in *.
  split; [exists new; auto|]. exact Hp.
Qed.

Lemma openPack_draws_from_catalog_witness :
  let w' := after (openPack reliable half 1 3) world_small_catalog in
  let got := [mkCard 1 "Sprout" "common" None 1; mkCard 1 "Sprout" "common" None 1;
              mkCard 1 "Sprout" "common" None 1] in
  cards (db w') = cards (db world_small_catalog) /\ length got = 3%nat /\
  (exists new, inventory (db w') = inventory (db world_small_catalog) ++ new
     /\ map inv_card new = map card_id got) /\
  forall i c, got !! i = Some c ->
    c ∈ cards (db world_small_catalog) /\
    (forall c', c' ∈ cards (db world_small_catalog) ->
       Some (card_rarity c') = sampled_rarity half (draws world_small_catalog + 2 * i) ->
       Some (card_rarity c) = sampled_rarity half (draws world_small_catalog + 2 * i)).
Proof.
  intros w' got.
  apply (openPack_draws_from_catalog reliable half 1 3 world_small_catalog w' got).
  - discriminate.
  - vm_compute. reflexivity.
Defined.

Lemma floor_scaled_unit (r : Q) (n : Z) :
  (0 <= r)%Q -> (r < 1)%Q -> 0 < n -> 0 <= Qfloor (r * inject_Z n) < n.
Proof.
  intros H0 H1 Hn. split.
  - change 0 with (Qfloor (inject_Z 0)). apply Qfloor_resp_le.
    apply Qmult_le_0_compat; [exact H0|].
    change (inject_Z 0 <= inject_Z n)%Q. rewrite <- Zle_Qle. lia.
  - rewrite Zlt_Qlt. eapply Qle_lt_trans; [apply Qfloor_le|].
    apply (Qlt_le_trans _ (1 * inject_Z n)%Q); [|rewrite Qmult_1_l; apply Qle_refl].
    apply Qmult_lt_compat_r; [|exact H1].
    change (inject_Z 0 < inject_Z n)%Q. rewrite <- Zlt_Qlt. exact Hn.
Qed.

Section SynthesizedCards.

Variable faulty : nat -> bool.
Variable random : nat -> Q.

(** One turn of the loop over an empty snapshot. *)
Lemma packLoop_empty_step (uid : Z) (n : nat) (got : list CardRow) :
  packLoop faulty random uid [] (S n) got
  = (do r1 <- Math_random random;
     do r2 <- Math_random random;
     match weightedChoice (fst getRaritiesAndWeights) (snd getRaritiesAndWeights) r1 with
     | None => throw TypeError
     | Some rar =>
         match rarity_default rar with
         | None => throw TypeError
         | Some d =>
             do c <- insert_card faulty
                       ("Card " +:+ pretty (Qfloor (r2 * inject_Z 9000)%Q + 1000))%string
                       rar (default_coins_per_hour d);
             do _ <- insert_inventory faulty uid (card_id c);
             packLoop faulty random uid [] n (got ++ [c])
         end
     end).
Proof. reflexivity. Qed.

(** A completed loop over an empty snapshot: copy [i] is a card created for
    it, with the next catalog id. *)
Lemma packLoop_synthesizes (uid : Z) (n : nat) :
  forall (got got' : list CardRow) (w w' : World),
  packLoop faulty random uid [] n got w = (Done got', w') ->
  exists picked new,
    got' = got ++ picked /\ length picked = n /\
    cards (db w') = cards (db w) ++ picked /\
    inventory (db w') = inventory (db w) ++ new /\
    map inv_card new = map card_id picked /\
    forall i c, picked !! i = Some c ->
      card_id c = cards_seq (db w) + 1 + Z.of_nat i /\
      image_file_id c = None /\
      Some (card_rarity c) = sampled_rarity random (draws w + 2 * i) /\
      (exists d, rarity_default (card_rarity c) = Some d
                 /\ coins_per_hour c = default_coins_per_hour d) /\
      card_name c
      = ("Card " +:+ pretty (Qfloor (random (draws w + 2 * i + 1) * inject_Z 9000)%Q
                             + 1000))%string.
Proof.
  induction n as [|n IH]; intros got got' w w' H.
  - injection H as <- <-. exists [], []. rewrite !app_nil_r.
    do 5 (split; [reflexivity|]). intros i c Hi. discriminate.
  - rewrite packLoop_empty_step in H.
    unfold bind at 1, Math_random at 1 in H. unfold bind at 1, Math_random at 1 in H.
    cbn [db trace draws] in H.
    fold (sampled_rarity random (draws w)) in H.
    destruct (sampled_rarity random (draws w)) as [rar|] eqn:Er; [|discriminate].
    destruct (rarity_default rar) as [d|] eqn:Ed; [|discriminate].
    apply bind_inv in H as [(c & w3 & H3 & H)|(e & _ & ?)]; [|discriminate].
    apply insert_card_done in H3 as (Hd3 & Hc & Hdb3). cbn [db draws] in Hd3, Hc, Hdb3.
    apply bind_inv in H as [([] & w4 & H4 & H)|(e & _ & ?)]; [|discriminate].
    apply insert_inventory_done in H4 as (Hd4 & Hdb4).
    apply IH in H as (picked & new & Hg & Hlen & Hcs & Hi & Hmap & Hp).
    exists (c :: picked), (mkInv (inventory_seq (db w3) + 1) uid (card_id c) :: new).
    split; [rewrite Hg, <- app_assoc; reflexivity|].
    split; [simpl; lia|].
    split; [rewrite Hcs, Hdb4, Hdb3; simpl; rewrite <- app_assoc; reflexivity|].
    split; [rewrite Hi, Hdb4, Hdb3; simpl; rewrite <- app_assoc; reflexivity|].
    split; [simpl; congruence|].
    intros [|i] c1 Hc1.
    + injection Hc1 as <-. rewrite Nat.mul_0_r, !Nat.add_0_r, Er, Hc. simpl.
      split; [lia|]. split; [reflexivity|]. split; [reflexivity|].
      split; [eauto|]. rewrite Nat.add_1_r. reflexivity.
    + destruct (Hp i c1 Hc1) as (Hid & Him & Hr & Hdef & Hname).
      rewrite Hdb4, Hdb3 in Hid. simpl in Hid. rewrite Hd4, Hd3 in Hr, Hname.
      split; [lia|]. split; [exact Him|].
      replace (draws w + 2 * S i)%nat with (S (S (draws w)) + 2 * i)%nat by lia.
      split; [exact Hr|]. split; [exact Hdef|exact Hname].
Qed.

End SynthesizedCards.

(** X10.  A pack that completes on an empty catalog bootstraps it: the
    catalog becomes exactly the [count] cards of the pack, one new card per
    copy with consecutive ids (no card is reused inside the pack), each
    referenced by the inventory row added for it, without image, with the
    rarity sampled for the copy and that rarity's default income, and named
    "Card n" with [n] between 1000 and 9999. *)
Theorem openPack_bootstraps_catalog (faulty : nat -> bool) (random : nat -> Q)
        (uid : Z) (count : nat) (w w' : World) (got : list CardRow) :
  in_unit random -> cards (db w) = [] ->
  openPack faulty random uid count w = (Done got, w') ->
  cards (db w') = got /\ length got = count /\
  (exists new, inventory (db w') = inventory (db w) ++ new
     /\ map inv_card new = map card_id got) /\
  forall i c, got !! i = Some c ->
    card_id c = cards_seq (db w) + 1 + Z.of_nat i /\
    image_file_id c = None /\
    Some (card_rarity c) = sampled_rarity random (draws w + 2 * i) /\
    (exists d, rarity_default (card_rarity c) = Some d
               /\ coins_per_hour c = default_coins_per_hour d) /\
    exists n, 1000 <= n <= 9999 /\ card_name c = ("Card " +:+ pretty n)%string.
Proof.
  intros Hunit Hempty H. unfold openPack in H.
  apply bind_inv in H as [(cardsDb & w1 & H1 & H)|(e & _ & ?)]; [|discriminate].
  unfold select_cards in H1.
  apply stmt_inv in H1 as (_ & Hd1 & [(_ & ? & _)|(_ & H1)]); [discriminate|].
  injection H1 as <- Hdb1. rewrite Hempty in H.
  apply packLoop_synthesizes in H as (picked & new & Hg & Hlen & Hcs & Hi & Hmap & Hp).
  simpl in Hg. subst picked. rewrite <- Hdb1, Hd1 in *. rewrite Hempty in Hcs.
  split; [exact Hcs|]. split; [exact Hlen|]. split; [exists new; auto|].
  intros i c Hc. destruct (Hp i c Hc) as (Hid & Him & Hr & Hdef & Hname).
  do 4 (split; [assumption|]).
  eexists. split; [|exact Hname].
  destruct (Hunit (draws w + 2 * i + 1)%nat) as [H0 H1].
  pose proof (floor_scaled_unit _ 9000 H0 H1 ltac:(lia)). lia.
Qed.

Lemma openPack_bootstraps_catalog_witness :
  let w' := after (openPack reliable half 1 2) world_one_user in
  let got := [mkCard 1 "Card 5500" "common" None 1; mkCard 2 "Card 5500" "common" None 1] in
  cards (db w') = got /\ length got = 2%nat /\
  (exists new, inventory (db w') = inventory (db world_one_user) ++ new
     /\ map inv_card new = map card_id got) /\
  forall i c, got !! i = Some c ->
    card_id c = cards_seq (db world_one_user) + 1 + Z.of_nat i /\
    image_file_id c = None /\
    Some (card_rarity c) = sampled_rarity half (draws world_one_user + 2 * i) /\
    (exists d, rarity_default (card_rarity c) = Some d
               /\ coins_per_hour c = default_coins_per_hour d) /\
    exists n, 1000 <= n <= 9999 /\ card_name c = ("Card " +:+ pretty n)%string.
Proof.
  intros w' got.
  apply (openPack_bootstraps_catalog reliable half 1 2 world_one_user w' got).
  - exact half_unit.
  - reflexivity.
  - vm_compute. reflexivity.
Defined.

(** ** Failures in the middle of a handler *)

(** X11.  The free pack's stamp is written before the cards are drawn and
    is not taken back: when the pack generation fails after it, the user
    keeps fewer than 5 new cards and the stored stamp is [now]; a new claim
    that falls inside the window counted from that stamp, as the process
    reads it back in its zone, is refused with CooldownActive. *)
Theorem free_pack_failure_starts_cooldown (faulty : nat -> bool) (random : nat -> Q)
        (COOLDOWN_MINUTES : Z) (zone_offset : Z -> Z) (uid now : Z) (w w' : World) (e : Exn) :
  cooldown_window COOLDOWN_MINUTES <= now - last_pack_read zone_offset (db w) uid ->
  faulty (length (trace w)) = false ->
  faulty (S (length (trace w))) = false ->
  faulty (S (S (length (trace w)))) = false ->
  free_pack faulty random COOLDOWN_MINUTES zone_offset uid now w = (Throw e, w') ->
  last_pack_of (db w') uid = now /\
  (exists new, inventory (db w') = inventory (db w) ++ new /\ (length new < 5)%nat) /\
  forall now2, now2 - local_epoch zone_offset now < cooldown_window COOLDOWN_MINUTES ->
    exists wait w2,
      free_pack reliable random COOLDOWN_MINUTES zone_offset uid now2 w'
      = (Done (CooldownActive wait), w2).
Proof.
  unfold last_pack_read, last_pack_of, cooldown_window. intros Hge Hf0 Hf1 Hf2 H.
  unfold free_pack, bind at 1, ensureUser in H.
  rewrite stmt_ok in H by exact Hf0. simpl in H.
  unfold bind at 1, select_last_pack in H.
  rewrite stmt_ok in H by (simpl; rewrite length_app, Nat.add_1_r; exact Hf1).
  simpl in H.
  set (s1 := match users (db w) !! uid with
             | Some _ => db w
             | None => set_users (insert uid (mkUser 0 0)) (db w)
             end) in *.
  assert (Hs1 : exists row, users s1 !! uid = Some row
                  /\ last_pack row = match users (db w) !! uid with
                                     | Some r => last_pack r | None => 0 end
                  /\ inventory s1 = inventory (db w)).
  { subst s1. destruct (users (db w) !! uid) as [row|] eqn:E.
    - exists row. auto.
    - exists (mkUser 0 0). simpl. rewrite lookup_insert_eq. auto. }
  destruct Hs1 as (row & Hrow & Hlast & Hinv). rewrite Hrow in H. simpl in H.
  rewrite Hlast in H.
  match type of H with context [Z.ltb ?a ?b] =>
    destruct (Z.ltb_spec a b) as [?|_]; [lia|] end.
  unfold bind at 1, update_last_pack in H.
  rewrite stmt_ok in H
    by (simpl; rewrite !length_app; simpl;
        replace (length (trace w) + 1 + 1)%nat with (S (S (length (trace w)))) by lia;
        exact Hf2).
  simpl in H.
  apply bind_inv in H as [(got & w1 & _ & H)|(e' & H1 & _)]; [discriminate|].
  apply openPack_spec in H1 as (Hu & _ & new & newc & Hi & _ & _ & _ & _ & Hlt).
  simpl in Hu, Hi.
  assert (Hnow : match users (db w') !! uid with
                 | Some r => last_pack r | None => 0 end = now).
  { rewrite Hu, (alter_present _ _ _ _ Hrow). reflexivity. }
  split; [exact Hnow|].
  split; [exists new; rewrite Hi, Hinv; split; [reflexivity|apply Hlt; discriminate]|].
  intros now2 Hlt2.
  destruct (free_pack_blocked random COOLDOWN_MINUTES zone_offset uid now2 w') as (w2 & E & _).
  { unfold last_pack_read, last_pack_of, cooldown_window. rewrite Hnow. exact Hlt2. }
  eauto.
Qed.

Lemma free_pack_failure_starts_cooldown_witness :
  let w' := after (free_pack (fail_at 6) half 30 utc 1 noon_2026) world_one_user in
  last_pack_of (db w') 1 = noon_2026 /\
  (exists new, inventory (db w') = inventory (db world_one_user) ++ new
     /\ (length new < 5)%nat) /\
  forall now2, now2 - local_epoch utc noon_2026 < cooldown_window 30 ->
    exists wait w2,
      free_pack reliable half 30 utc 1 now2 w' = (Done (CooldownActive wait), w2).
Proof.
  intros w'.
  apply (free_pack_failure_starts_cooldown (fail_at 6) half 30 utc 1 noon_2026 world_one_user w'
           (DbError (InsCard "Card 5500" "common" 1))).
  - vm_compute. discriminate.
  - reflexivity.
  - reflexivity.
  - reflexivity.
  - vm_compute. reflexivity.
Defined.

(** X12.  Whatever fails, [buyPack] changes no account but the buyer's,
    creates no account, keeps the buyer's timestamp, and leaves the balance
    either as it was or lower by exactly [price] with [price <= balance]: a
    balance that is not negative stays so. *)
Theorem buyPack_touches_only_buyer_balance (faulty : nat -> bool) (random : nat -> Q)
        (uid : Z) (count : nat) (price : Z) (w w' : World) (r : Result Reply) :
  buyPack faulty random uid count price w = (r, w') ->
  (forall u, u <> uid -> users (db w') !! u = users (db w) !! u) /\
  (users (db w) !! uid = None -> users (db w') !! uid = None) /\
  (forall row, users (db w) !! uid = Some row ->
     exists row', users (db w') !! uid = Some row' /\
       last_pack row' = last_pack row /\
       (coins row' = coins row \/ (price <= coins row /\ coins row' = coins row - price)) /\
       (0 <= coins row -> 0 <= coins row')).
Proof.
  intros H.
  assert (Hsame : users (db w') = users (db w) ->
    (forall u, u <> uid -> users (db w') !! u = users (db w) !! u) /\
    (users (db w) !! uid = None -> users (db w') !! uid = None) /\
    (forall row, users (db w) !! uid = Some row ->
       exists row', users (db w') !! uid = Some row' /\
         last_pack row' = last_pack row /\
         (coins row' = coins row \/ (price <= coins row /\ coins row' = coins row - price)) /\
         (0 <= coins row -> 0 <= coins row'))).
  { intros ->. split; [auto|]. split; [auto|]. intros row Hrow. exists row. auto. }
  unfold buyPack in H.
  apply bind_inv in H as [(res & w1 & H1 & H)|(e & H1 & _)]; unfold select_coins in H1;
    apply stmt_inv in H1 as (_ & _ & [(_ & Hr1 & Hw1)|(_ & H1)]).
  - discriminate Hr1.
  - injection H1 as <- Hw1.
    destruct (Z.ltb_spec (match coins <$> users (db w) !! uid with
                          | Some c => c | None => 0 end) price) as [_|Hle].
    + injection H as <- <-. apply Hsame. rewrite <- Hw1. reflexivity.
    + assert (Hu : users (db w') = users (db w)
                   \/ users (db w') = alter (add_coins (- price)) uid (users (db w))).
      { apply bind_inv in H as [([] & w2 & H2 & H)|(e & H2 & _)];
          unfold update_coins_sub in H2;
          apply stmt_inv in H2 as (_ & _ & [(_ & Hr2 & Hw2)|(_ & H2)]).
        - discriminate Hr2.
        - injection H2 as Hw2.
          apply bind_inv in H as [(got & w3 & H3 & H)|(e & H3 & _)].
          + injection H as _ <-. apply openPack_spec in H3 as (Hu3 & _).
            right. rewrite Hu3, <- Hw2, <- Hw1. reflexivity.
          + apply openPack_spec in H3 as (Hu3 & _).
            right. rewrite Hu3, <- Hw2, <- Hw1. reflexivity.
        - left. rewrite Hw2, <- Hw1. reflexivity.
        - discriminate H2. }
      destruct Hu as [Hu|Hu]; [apply Hsame, Hu|]. rewrite Hu.
      split; [intros u Hne; apply lookup_alter_ne; congruence|].
      split; [intros Hnone; rewrite lookup_alter_eq, Hnone; reflexivity|].
      intros row Hrow. rewrite Hrow in Hle. simpl in Hle.
      exists (add_coins (- price) row).
      split; [apply alter_present, Hrow|]. split; [reflexivity|].
      split; [right; split; [exact Hle|reflexivity]|]. simpl. lia.
  - apply Hsame. rewrite Hw1. reflexivity.
  - discriminate H1.
Qed.

Lemma buyPack_touches_only_buyer_balance_witness :
  let w' := after (buyPack (fail_at 3) half 1 3 25) world_one_user in
  (forall u, u <> 1 -> users (db w') !! u = users (db world_one_user) !! u) /\
  (users (db world_one_user) !! 1 = None -> users (db w') !! 1 = None) /\
  (forall row, users (db world_one_user) !! 1 = Some row ->
     exists row', users (db w') !! 1 = Some row' /\
       last_pack row' = last_pack row /\
       (coins row' = coins row \/ (25 <= coins row /\ coins row' = coins row - 25)) /\
       (0 <= coins row -> 0 <= coins row')).
Proof.
  intros w'.
  apply (buyPack_touches_only_buyer_balance (fail_at 3) half 1 3 25 world_one_user w'
           (Throw (DbError (InsCard "Card 5500" "common" 1)))).
  vm_compute. reflexivity.
Defined.

(** ** More on passive income *)

Lemma balances_grew_refl (m : gmap Z UserRow) : balances_grew m m.
Proof. intros uid. destruct (m !! uid); [split; [reflexivity|lia]|exact I]. Qed.

Lemma balances_grew_credit (m m' : gmap Z UserRow) (inc u : Z) :
  0 < inc -> balances_grew (alter (add_coins inc) u m) m' -> balances_grew m m'.
Proof.
  intros Hpos H uid. specialize (H uid).
  destruct (decide (u = uid)) as [->|Hne].
  - rewrite lookup_alter_eq in H. destruct (m !! uid) as [row|]; simpl in H; [|exact H].
    destruct (m' !! uid); [|exact H]. destruct H as [Hl Hc]. simpl in Hl, Hc.
    split; [exact Hl|lia].
  - rewrite lookup_alter_ne in H by exact Hne. exact H.
Qed.

Lemma creditLoop_grows (faulty : nat -> bool) (rows : list (Z * Z)) :
  forall (w w' : World) (r : Result unit),
  creditLoop faulty rows w = (r, w') ->
  balances_grew (users (db w)) (users (db w')) /\
  inventory (db w') = inventory (db w) /\ cards (db w') = cards (db w) /\
  trades (db w') = trades (db w).
Proof.
  induction rows as [|[u inc] rows IH]; intros w w' r H.
  - injection H as <- <-. split; [apply balances_grew_refl|auto].
  - simpl in H. destruct (Z.ltb_spec 0 inc) as [Hpos|_]; [|apply IH in H; exact H].
    apply bind_inv in H as [([] & w1 & H1 & H)|(e & H1 & _)];
      unfold update_coins_add in H1;
      apply stmt_inv in H1 as (_ & _ & [(_ & Hr1 & Hw1)|(_ & H1)]).
    + discriminate Hr1.
    + injection H1 as Hw1. apply IH in H as (Hg & Hi & Hc & Ht).
      rewrite <- Hw1 in *. simpl in *.
      split; [eapply balances_grew_credit; eassumption|auto].
    + rewrite Hw1. split; [apply balances_grew_refl|auto].
    + discriminate H1.
Qed.

(** X13.  Whatever fails, a passive-income tick only ever raises balances:
    it creates and removes no account, changes no timestamp, lowers no
    balance, and leaves inventory, catalog and trades as they are. *)
Theorem income_tick_only_raises_balances (faulty : nat -> bool) (w : World) :
  let w' := snd (income_tick faulty w) in
  balances_grew (users (db w)) (users (db w')) /\
  inventory (db w') = inventory (db w) /\ cards (db w') = cards (db w) /\
  trades (db w') = trades (db w).
Proof.
  unfold income_tick. destruct (givePassiveIncomeAll faulty w) as [r w'] eqn:E.
  assert (H : balances_grew (users (db w)) (users (db w')) /\
              inventory (db w') = inventory (db w) /\ cards (db w') = cards (db w) /\
              trades (db w') = trades (db w)).
  { unfold givePassiveIncomeAll in E.
    apply bind_inv in E as [(rows & w1 & H1 & H)|(e & H1 & _)];
      unfold select_income in H1;
      apply stmt_inv in H1 as (_ & _ & [(_ & Hr1 & Hw1)|(_ & H1)]).
    - discriminate Hr1.
    - injection H1 as _ Hw1. apply creditLoop_grows in H. rewrite <- Hw1 in H. exact H.
    - rewrite Hw1. split; [apply balances_grew_refl|auto].
    - discriminate H1. }
  destruct r; exact H.
Qed.

(** X14.  Ticks add up: after [k] ticks on a store that does not fail, with
    nothing else happening in between, the balance of a user whose owned
    cards have the rates [rates] has gone up by [k] times their sum (by
    nothing when the sum is not positive), and inventory and catalog are as
    before: every tick reads the same holdings again. *)
Theorem income_ticks_add_up (k : nat) (w : World) (uid : Z) (row : UserRow) (rates : list Z) :
  users (db w) !! uid = Some row ->
  owned_rates (db w) uid = rates ->
  users (db (ticks k w)) !! uid
    = Some (mkUser (last_pack row) (coins row + Z.of_nat k * Z.max 0 (sum_rates rates))) /\
  inventory (db (ticks k w)) = inventory (db w) /\
  cards (db (ticks k w)) = cards (db w).
Proof.
  intros Hrow Hrates. induction k as [|k (Hu & Hi & Hc)].
  - simpl. rewrite Z.add_0_r. destruct row. auto.
  - unfold ticks in *. rewrite !Nat.iter_succ.
    set (wk := Nat.iter k (fun w => snd (income_tick reliable w)) w) in *.
    pose proof (owned_rates_ext (db w) (db wk) uid Hi Hc) as Hr.
    pose proof (income_of_rates (db wk) uid) as Hinc. rewrite Hr, Hrates in Hinc.
    assert (Hstep : snd (income_tick reliable wk)
                    = mkWorld (set_users (credit_all (income_rows (db wk))) (db wk))
                              (trace wk ++ SelIncome :: credit_writes (income_rows (db wk)))
                              (draws wk)).
    { unfold income_tick. rewrite givePassiveIncomeAll_reliable. reflexivity. }
    rewrite Hstep. simpl.
    split; [|split; assumption].
    rewrite credit_all_lookup by apply income_rows_NoDup.
    rewrite (find_payable_income _ _ _ Hu), Hu, Hinc.
    rewrite Nat2Z.inj_succ, Z.mul_succ_l.
    destruct (Z.ltb_spec 0 (sum_rates rates)); simpl.
    + rewrite Z.max_r by lia. unfold add_coins. simpl. f_equal. f_equal. lia.
    + rewrite Z.max_l by lia. f_equal. f_equal. lia.
Qed.

(** Rates 1 and 8 for three hours: balance 5 to 32. *)
Lemma income_ticks_add_up_witness :
  users (db (ticks 3 world_income)) !! 1
    = Some (mkUser (last_pack (mkUser 0 5))
                   (coins (mkUser 0 5) + Z.of_nat 3 * Z.max 0 (sum_rates [1; 8]))) /\
  inventory (db (ticks 3 world_income)) = inventory (db world_income) /\
  cards (db (ticks 3 world_income)) = cards (db world_income).
Proof.
  apply (income_ticks_add_up 3 world_income 1 (mkUser 0 5) [1; 8]).
  - vm_compute. reflexivity.
  - vm_compute. reflexivity.
Defined.

Example income_ticks_three_hours :
  users (db (ticks 3 world_income)) !! 1 = Some (mkUser 0 32).
Proof. vm_compute. reflexivity. Qed.

(** ** The proposal text *)

Lemma append_cons (a : Ascii.ascii) (s t : string) :
  String a s +:+ t = String a (s +:+ t).
Proof. reflexivity. Qed.

Lemma append_empty_r (s : string) : s +:+ EmptyString = s.
Proof. induction s as [|a s IH]; [reflexivity|]. rewrite append_cons, IH. reflexivity. Qed.

Lemma append_snoc (cur : string) (a : Ascii.ascii) (s : string) :
  (cur +:+ String a EmptyString) +:+ s = cur +:+ String a s.
Proof.
  induction cur as [|c cur IH]; [reflexivity|]. rewrite !append_cons, IH. reflexivity.
Qed.

Lemma substring_all (s : string) : String.substring 0 (String.length s) s = s.
Proof. induction s as [|a s IH]; [reflexivity|]. simpl. rewrite IH. reflexivity. Qed.

Lemma remove_first_prefix (a : string) : remove_first "inv#" ("inv#" +:+ a) = a.
Proof.
  change ("inv#" +:+ a) with (String "i" (String "n" (String "v" (String "#" a)))).
  destruct a as [|c a].
  - reflexivity.
  - cbn. rewrite substring_all. reflexivity.
Qed.

Lemma split_without_backslash (txt : string) :
  has_backslash txt = false ->
  forall cur, split_backslash_s txt cur false = [cur +:+ txt].
Proof.
  induction txt as [|a txt IH]; intros Hb cur.
  - simpl. rewrite append_empty_r. reflexivity.
  - simpl in Hb. apply orb_false_iff in Hb as [Ha Hb].
    cbn [split_backslash_s andb]. destruct txt as [|b txt'].
    + reflexivity.
    + rewrite Ha. cbn [andb]. rewrite (IH Hb), append_snoc. reflexivity.
Qed.

Lemma split_in_separator (txt : string) :
  has_backslash txt = false -> String.prefix "s" txt = false ->
  forall cur, split_backslash_s txt cur true = [cur +:+ txt].
Proof.
  intros Hb Hs cur. destruct txt as [|a txt].
  - simpl. rewrite append_empty_r. reflexivity.
  - assert (Ha : Ascii.eqb a "s" = false).
    { simpl in Hs. destruct (Ascii.eqb_spec a "s") as [->|]; [|reflexivity].
      simpl in Hs. destruct (Ascii.ascii_dec "s" "s"); [|contradiction].
      destruct txt; discriminate. }
    pose proof (split_without_backslash (String a txt) Hb cur) as H.
    cbn [split_backslash_s andb] in *. rewrite Ha. cbn [andb]. exact H.
Qed.

Lemma split_at_separator (a b : string) :
  has_backslash a = false ->
  forall cur,
  split_backslash_s (a +:+ String "\" (String "s" b)) cur false
  = (cur +:+ a) :: split_backslash_s b EmptyString true.
Proof.
  induction a as [|c a IH]; intros Hb cur.
  - change (EmptyString +:+ String "\"%char (String "s"%char b))
      with (String "\"%char (String "s"%char b)).
    cbn [split_backslash_s andb Ascii.eqb Bool.eqb].
    rewrite append_empty_r. reflexivity.
  - simpl in Hb. apply orb_false_iff in Hb as [Hc Hb].
    rewrite append_cons. cbn [split_backslash_s andb].
    pose proof (IH Hb (cur +:+ String c EmptyString)) as IH'.
    rewrite append_snoc in IH'.
    destruct (a +:+ String "\"%char (String "s"%char b)) as [|d rest] eqn:E.
    + destruct a; discriminate.
    + rewrite Hc. cbn [andb]. exact IH'.
Qed.

(** X15.  A proposal text without a backslash is never taken as a proposal:
    whatever the store and the sender, the handler answers with the usage
    hint and sends no statement.  The separator of the source is the
    pattern backslash-s, so the white space of the advertised form
    [inv#<id> <tg_id>] does not separate anything. *)
Theorem text_proposal_needs_backslash (faulty : nat -> bool) (uid : Z) (txt : string)
        (w : World) :
  has_backslash txt = false ->
  text_proposal faulty uid txt w = (Done ProposalUsage, w).
Proof.
  intros Hb. unfold text_proposal.
  rewrite (split_without_backslash txt Hb). reflexivity.
Qed.

Lemma text_proposal_needs_backslash_witness :
  text_proposal reliable 1 "inv#1 2" world_traders = (Done ProposalUsage, world_traders).
Proof.
  apply (text_proposal_needs_backslash reliable 1 "inv#1 2" world_traders).
  reflexivity.
Defined.

(** X16.  What the handler does take as a proposal: [inv#], a first part, a
    backslash followed by the letter s, and a second part.  Both parts go
    through [parseInt]; two numbers are handed to the proposal proper, and
    anything else is answered as a format error without touching the store. *)
Theorem text_proposal_backslash_s (faulty : nat -> bool) (uid : Z) (a b : string)
        (w : World) :
  has_backslash a = false -> has_backslash b = false -> String.prefix "s" b = false ->
  text_proposal faulty uid ("inv#" +:+ a +:+ String "\" (String "s" b)) w
  = match parseInt10 a, parseInt10 b with
    | Some invId, Some toUser =>
        (do r <- propose_trade faulty uid invId toUser; ret (ProposalAnswer r)) w
    | _, _ => (Done (ProposalAnswer BadFormat), w)
    end.
Proof.
  intros Ha Hb Hs. unfold text_proposal.
  change ("inv#" +:+ a +:+ String "\"%char (String "s"%char b))
    with (("inv#" +:+ a) +:+ String "\"%char (String "s"%char b)).
  rewrite (split_at_separator ("inv#" +:+ a) b) by exact Ha.
  rewrite (split_in_separator b Hb Hs).
  change (EmptyString +:+ "inv#" +:+ a) with ("inv#" +:+ a).
  rewrite remove_first_prefix.
  change (EmptyString +:+ b) with b.
  destruct (parseInt10 a), (parseInt10 b); reflexivity.
Qed.

Lemma text_proposal_backslash_s_witness :
  text_proposal reliable 1 ("inv#" +:+ "1" +:+ String "\" (String "s" "2")) world_traders
  = match parseInt10 "1", parseInt10 "2" with
    | Some invId, Some toUser =>
        (do r <- propose_trade reliable 1 invId toUser; ret (ProposalAnswer r))
          world_traders
    | _, _ => (Done (ProposalAnswer BadFormat), world_traders)
    end.
Proof.
  apply (text_proposal_backslash_s reliable 1 "1" "2" world_traders); reflexivity.
Defined.

(** [parseInt] answers a Number: beyond 53 significant bits the id handed
    on is the nearest double, not the integer that was typed. *)
Example parseInt10_rounds_to_double :
  parseInt10 "9007199254740993" = Some 9007199254740992
  /\ parseInt10 " 42abc" = Some 42 /\ parseInt10 "-7" = Some (-7) /\ parseInt10 "x1" = None.
Proof. vm_compute. repeat split; reflexivity. Qed.

(** The owner of entry 1 offers it to user 2 in the form the handler takes:
    the answer is the refusal of [propose_trade_reliable]. *)
Example text_proposal_by_owner :
  fst (text_proposal reliable 1 ("inv#1" +:+ String "\" (String "s" "2")) world_traders)
  = Done (ProposalAnswer NotOwner).
Proof. vm_compute. reflexivity. Qed.
